(** * The cache package of goupter: in-process store, multi-level
      orchestrator and error taxonomy, embedded from
      [pkg/cache/{errors,memory,multi}.go]. *)

From Stdlib Require Import ZArith Lia Bool Strings.Byte DecimalFacts DecimalPos.
From stdpp Require Import base option list gmap strings.

Local Open Scope Z_scope.

(* ===================================================================== *)
(** ** Go errors as the package uses them                                 *)
(* ===================================================================== *)

(** A Go [error] value is either [nil] or a non-nil value; [nil] is [None]
    of [option error].  The constructors are the shapes of error value that
    [IsNotFound] can tell apart: the package sentinel (compared by identity
    by [errors.Is]), the typed per-key error, an error with no [Unwrap]
    method (an [errors.New] value other than the sentinel, a json or driver
    error), and an error that wraps another one ([fmt.Errorf] with [%w], as
    [redis.go] does).  Error types that bring their own [Is] or [As] method,
    or that wrap several errors at once, do not occur in the package and are
    not among the shapes. *)
Inductive error : Type :=
  | ErrNotFound
  | NotFoundError (Key : string)
  | errorString (s : string)
  | wrapError (msg : string) (err : error).

#[global] Instance error_eq_dec : EqDecision error.
Proof. solve_decision. Defined.

(** [err.Error()] *)
Definition Error (e : error) : string :=
  match e with
  | ErrNotFound => "cache: key not found"
  | NotFoundError Key => "cache: key not found: " +:+ Key
  | errorString s => s
  | wrapError msg _ => msg
  end.

(** [errors.Unwrap(err)] *)
Definition Unwrap (e : error) : option error :=
  match e with
  | wrapError _ err => Some err
  | _ => None
  end.

(** [errors.As(err, &notFoundErr)] with [notFoundErr : *NotFoundError]:
    the first [*NotFoundError] of the [Unwrap] chain, if any. *)
Fixpoint errors_As_NotFoundError (e : error) : option string :=
  match e with
  | NotFoundError Key => Some Key
  | wrapError _ err => errors_As_NotFoundError err
  | _ => None
  end.

(** [errors.Is(err, ErrNotFound)]: some error of the [Unwrap] chain is the
    sentinel itself. *)
Fixpoint errors_Is_ErrNotFound (e : error) : bool :=
  match e with
  | ErrNotFound => true
  | wrapError _ err => errors_Is_ErrNotFound err
  | _ => false
  end.

(** [IsNotFound] of [errors.go]. *)
Definition IsNotFound (err : option error) : bool :=
  match err with
  | None => false
  | Some e =>
      if errors_As_NotFoundError e is Some _ then true
      else if errors_Is_ErrNotFound e then true
      else if String.eqb (Error e) "redis: nil" then true
      else false
  end.

(** [in_chain e' e]: [e'] is [e] or is reached from [e] by [Unwrap]. *)
Inductive in_chain (e' : error) : error -> Prop :=
  | in_chain_here : in_chain e' e'
  | in_chain_unwrap msg e : in_chain e' e -> in_chain e' (wrapError msg e).

(* ===================================================================== *)
(** ** Time, durations and 64-bit integers                                *)
(* ===================================================================== *)

(** A [time.Time] is an instant, counted in nanoseconds from the zero
    [Time]; [time.Time{}] is [0].  A [time.Duration] and an [int64] are
    integers of [Z] with the 64-bit wrap-around written out where the code
    computes with them. *)
Definition minInt64 : Z := - 2 ^ 63.
Definition maxInt64 : Z := 2 ^ 63 - 1.

Definition is_int64 (z : Z) : Prop := minInt64 <= z <= maxInt64.

(** Two's complement wrap-around of int64 arithmetic. *)
Definition wrap64 (z : Z) : Z := (z + 2 ^ 63) mod 2 ^ 64 - 2 ^ 63.

(** [t.IsZero()] *)
Definition IsZero (t : Z) : bool := t =? 0.

(** [t.After(u)] *)
Definition After (t u : Z) : bool := u <? t.

(** [t.Add(d)] *)
Definition Add (t d : Z) : Z := t + d.

(** [t.Sub(u)]: the difference, saturated to the range of a Duration. *)
Definition Sub (t u : Z) : Z := Z.max minInt64 (Z.min maxInt64 (t - u)).

(** [time.Until(t)] when the clock reads [now]. *)
Definition Until (t now : Z) : Z := Sub t now.

(* ===================================================================== *)
(** ** encoding/json, as far as the store depends on it                   *)
(* ===================================================================== *)

Abbreviation bytes := (list byte).

#[global] Instance byte_eq_dec : EqDecision byte := Byte.byte_eq_dec.

(** What the store needs of [json.Marshal] and [json.Unmarshal] for a Go
    type [V]: [json_Marshal v] is the pair [(data, err)] that Go returns;
    [json_Unmarshal data dest] is the destination after the call together
    with the error. *)
Class JSON (V : Type) := {
  json_Marshal : V -> bytes * option error;
  json_Unmarshal : bytes -> V -> V * option error
}.

(** *** The int64 instance: decimal literals *)

Fixpoint bytes_of_uint (d : Decimal.uint) : bytes :=
  match d with
  | Decimal.Nil => []
  | Decimal.D0 d => "0"%byte :: bytes_of_uint d
  | Decimal.D1 d => "1"%byte :: bytes_of_uint d
  | Decimal.D2 d => "2"%byte :: bytes_of_uint d
  | Decimal.D3 d => "3"%byte :: bytes_of_uint d
  | Decimal.D4 d => "4"%byte :: bytes_of_uint d
  | Decimal.D5 d => "5"%byte :: bytes_of_uint d
  | Decimal.D6 d => "6"%byte :: bytes_of_uint d
  | Decimal.D7 d => "7"%byte :: bytes_of_uint d
  | Decimal.D8 d => "8"%byte :: bytes_of_uint d
  | Decimal.D9 d => "9"%byte :: bytes_of_uint d
  end.

(** [strconv.AppendInt(nil, n, 10)], which [json.Marshal] emits for an
    int64. *)
Definition format_int (n : Z) : bytes :=
  match Z.to_int n with
  | Decimal.Pos d => bytes_of_uint d
  | Decimal.Neg d => "-"%byte :: bytes_of_uint d
  end.

Definition digit_of_byte (b : byte) : option Z :=
  match b with
  | "0"%byte => Some 0 | "1"%byte => Some 1 | "2"%byte => Some 2
  | "3"%byte => Some 3 | "4"%byte => Some 4 | "5"%byte => Some 5
  | "6"%byte => Some 6 | "7"%byte => Some 7 | "8"%byte => Some 8
  | "9"%byte => Some 9
  | _ => None
  end.

Fixpoint parse_digits (acc : Z) (bs : bytes) : option Z :=
  match bs with
  | [] => Some acc
  | b :: bs' =>
      match digit_of_byte b with
      | Some d => parse_digits (10 * acc + d) bs'
      | None => None
      end
  end.

(** A JSON number literal without fraction and exponent (an optional minus
    sign, then a single zero or a non-zero digit and further digits), read as [strconv.ParseInt(s, 10, 64)] reads it:
    [None] for any other text and for a value out of the int64 range. *)
Definition parse_int (bs : bytes) : option Z :=
  let '(neg, ds) :=
    match bs with
    | "-"%byte :: ds => (true, ds)
    | _ => (false, bs)
    end in
  match ds with
  | [] => None
  | "0"%byte :: _ :: _ => None
  | _ =>
      match parse_digits 0 ds with
      | Some n =>
          let n := if neg then - n else n in
          if (minInt64 <=? n) && (n <=? maxInt64) then Some n else None
      | None => None
      end
  end.

(** JSON insignificant whitespace. *)
Definition is_space (b : byte) : bool :=
  match b with
  | " "%byte | x09 | x0a | x0d => true
  | _ => false
  end.

Fixpoint trim_left (bs : bytes) : bytes :=
  match bs with
  | b :: bs' => if is_space b then trim_left bs' else bs
  | [] => []
  end.

Definition trim (bs : bytes) : bytes :=
  rev (trim_left (rev (trim_left bs))).

Definition null_literal : bytes := ["n"; "u"; "l"; "l"]%byte.

(** The error of a failed decode into an int64.  Go reports a
    [*json.SyntaxError] or a [*json.UnmarshalTypeError] here; neither has an
    [Unwrap] method and the store looks at neither, so one value stands for
    both. *)
Definition json_int64_error : error :=
  errorString "json: cannot unmarshal into Go value of type int64".

(** [json.Unmarshal(data, &dest)] with [dest : int64]: an integer literal
    in range is stored, [null] leaves the destination as it is without an
    error, and every other input (not JSON at all, or JSON of another kind:
    a string, a fraction, an array, an integer out of range) is an error
    that leaves the destination as it is. *)
Definition json_Unmarshal_int64 (data : bytes) (dest : Z) : Z * option error :=
  let lit := trim data in
  if decide (lit = null_literal) then (dest, None)
  else match parse_int lit with
       | Some n => (n, None)
       | None => (dest, Some json_int64_error)
       end.

Definition json_Marshal_int64 (n : Z) : bytes * option error :=
  (format_int n, None).

#[global] Instance JSON_int64 : JSON Z := {
  json_Marshal := json_Marshal_int64;
  json_Unmarshal := json_Unmarshal_int64
}.

(* ===================================================================== *)
(** ** The in-process store ([memory.go])                                 *)
(* ===================================================================== *)

(** [cacheItem]: the encoded value and the absolute expiration; the zero
    [Time] stands for no expiration. *)
Record cacheItem : Type := {
  value : bytes;
  expiresAt : Z
}.

(** [item.isExpired()] when its [time.Now()] reads [now]. *)
Definition isExpired (item : cacheItem) (now : Z) : bool :=
  if IsZero (expiresAt item) then false
  else After now (expiresAt item).

(** The [data] map of a [memoryCache].  Every operation holds the store's
    lock around its accesses to the map, so an operation is one step on the
    map; the arguments [now], [now1], [now2] are the readings of the
    [time.Now()] calls that the operation makes, in the order it makes
    them. *)
Abbreviation memoryCache := (gmap string cacheItem).

(** [NewMemoryCache]: the empty map. *)
Definition NewMemoryCache : memoryCache := ∅.

(** One pass of the background sweep of [cleanup]: [nowOf key] is the clock
    reading taken when the pass visits [key]. *)
Definition cleanup (c : memoryCache) (nowOf : string -> Z) : memoryCache :=
  filter (fun kv => isExpired (snd kv) (nowOf (fst kv)) = false) c.

Definition memoryCache_Get {V} `{JSON V}
    (c : memoryCache) (now : Z) (key : string) (out : V) : V * option error :=
  match c !! key with
  | None => (out, Some (NotFoundError key))
  | Some item =>
      if isExpired item now then (out, Some (NotFoundError key))
      else json_Unmarshal (value item) out
  end.

Definition memoryCache_Set {V} `{JSON V}
    (c : memoryCache) (now : Z) (key : string) (v : V) (ttl : Z)
    : option error * memoryCache :=
  let '(data, err) := json_Marshal v in
  match err with
  | Some e => (Some e, c)
  | None =>
      let item :=
        {| value := data;
           expiresAt := if 0 <? ttl then Add now ttl else 0 |} in
      (None, <[key := item]> c)
  end.

Definition memoryCache_Delete (c : memoryCache) (key : string)
    : option error * memoryCache :=
  (None, delete key c).

Definition memoryCache_Exists (c : memoryCache) (now : Z) (key : string)
    : bool * option error :=
  match c !! key with
  | None => (false, None)
  | Some item => if isExpired item now then (false, None) else (true, None)
  end.

Definition memoryCache_MDelete (c : memoryCache) (keys : list string)
    : option error * memoryCache :=
  (None, foldl (fun m key => delete key m) c keys).

Definition memoryCache_IncrBy
    (c : memoryCache) (now : Z) (key : string) (n : Z)
    : (Z * option error) * memoryCache :=
  let current :=
    match c !! key with
    | Some item =>
        if negb (isExpired item now)
        then fst (json_Unmarshal_int64 (value item) 0)
        else 0
    | None => 0
    end in
  let current := wrap64 (current + n) in
  let '(data, _) := json_Marshal_int64 current in
  ((current, None), <[key := {| value := data; expiresAt := 0 |}]> c).

Definition memoryCache_Incr (c : memoryCache) (now : Z) (key : string)
    : (Z * option error) * memoryCache :=
  memoryCache_IncrBy c now key 1.

Definition memoryCache_DecrBy
    (c : memoryCache) (now : Z) (key : string) (n : Z)
    : (Z * option error) * memoryCache :=
  memoryCache_IncrBy c now key (wrap64 (- n)).

Definition memoryCache_Decr (c : memoryCache) (now : Z) (key : string)
    : (Z * option error) * memoryCache :=
  memoryCache_DecrBy c now key 1.

(** [SetNX]: [now1] is read by [isExpired], [now2] by the [time.Now()] of
    the new item's expiration. *)
Definition memoryCache_SetNX {V} `{JSON V}
    (c : memoryCache) (now1 now2 : Z) (key : string) (v : V) (ttl : Z)
    : (bool * option error) * memoryCache :=
  let live :=
    match c !! key with
    | Some item => negb (isExpired item now1)
    | None => false
    end in
  if live then ((false, None), c)
  else
    let '(data, err) := json_Marshal v in
    match err with
    | Some e => ((false, Some e), c)
    | None =>
        let item :=
          {| value := data;
             expiresAt := if 0 <? ttl then Add now2 ttl else 0 |} in
        ((true, None), <[key := item]> c)
    end.

Definition memoryCache_Expire
    (c : memoryCache) (now : Z) (key : string) (ttl : Z)
    : option error * memoryCache :=
  match c !! key with
  | Some item =>
      (None, <[key := {| value := value item; expiresAt := Add now ttl |}]> c)
  | None => (None, c)
  end.

(** [TTL]: [now1] is read by [isExpired], [now2] by [time.Until]. *)
Definition memoryCache_TTL
    (c : memoryCache) (now1 now2 : Z) (key : string) : Z * option error :=
  match c !! key with
  | None => (-2, None)
  | Some item =>
      if IsZero (expiresAt item) then (-1, None)
      else if isExpired item now1 then (-2, None)
      else (Until (expiresAt item) now2, None)
  end.

(* ===================================================================== *)
(** ** The Cache interface and the multi-level orchestrator ([multi.go])  *)
(* ===================================================================== *)

(** A call on a tier runs against everything the tier can reach: its own
    entries, a clock, a network peer, entries it shares with another tier
    when one cache is configured twice.  [W] is that world, and a call is a
    state transformer on it. *)
Definition M (W A : Type) : Type := W -> A * W.

Definition ret {W A} (a : A) : M W A := fun w => (a, w).

Definition bind {W A B} (m : M W A) (k : A -> M W B) : M W B :=
  fun w => let '(a, w') := m w in k a w'.

Declare Scope cache_scope.
Delimit Scope cache_scope with cache.
Notation "'do' x <- m ;; k" := (bind m (fun x => k))
  (at level 100, x name, m at next level, right associativity) : cache_scope.
Notation "'do' ' p <- m ;; k" := (bind m (fun p => k))
  (at level 100, p pattern, m at next level, right associativity) : cache_scope.

(** Run the calls one after the other and collect every result. *)
Fixpoint run_all {W A} (ms : list (M W A)) : M W (list A) :=
  match ms with
  | [] => ret []
  | m :: ms' => (do a <- m ;; do l <- run_all ms' ;; ret (a :: l))%cache
  end.

(** The [Cache] interface of [cache.go] for values of type [V] (Go's
    [interface{}]); [ctx] is passed through unchanged and is left out. *)
Record Cache (W V : Type) : Type := {
  Get : string -> V -> M W (V * option error);
  Set_ : string -> V -> Z -> M W (option error);
  Delete : string -> M W (option error);
  Exists : string -> M W (bool * option error);
  MGet : list string -> M W (gmap string V * option error);
  MSet : gmap string V -> Z -> M W (option error);
  MDelete : list string -> M W (option error);
  Incr : string -> M W (Z * option error);
  IncrBy : string -> Z -> M W (Z * option error);
  Decr : string -> M W (Z * option error);
  DecrBy : string -> Z -> M W (Z * option error);
  SetNX : string -> V -> Z -> M W (bool * option error);
  Expire : string -> Z -> M W (option error);
  TTL : string -> M W (Z * option error);
  Close : M W (option error);
  Ping : M W (option error)
}.

Arguments Get {W V} _ _ _.
Arguments Set_ {W V} _ _ _ _.
Arguments Delete {W V} _ _.
Arguments Exists {W V} _ _.
Arguments MGet {W V} _ _.
Arguments MSet {W V} _ _ _.
Arguments MDelete {W V} _ _.
Arguments Incr {W V} _ _.
Arguments IncrBy {W V} _ _ _.
Arguments Decr {W V} _ _.
Arguments DecrBy {W V} _ _ _.
Arguments SetNX {W V} _ _ _ _.
Arguments Expire {W V} _ _ _.
Arguments TTL {W V} _ _.
Arguments Close {W V} _.
Arguments Ping {W V} _.

Section multiLevelCache.
Context {W V : Type}.

Local Open Scope cache_scope.

(** The body of the fan-out loops: [var lastErr error], then every level
    in turn, [lastErr] overwritten by each error that is not [nil]. *)
Fixpoint fan_out (lastErr : option error)
    (calls : list (M W (option error))) : M W (option error) :=
  match calls with
  | [] => ret lastErr
  | call :: calls' =>
      do err <- call ;;
      fan_out (if err is Some _ then err else lastErr) calls'
  end.

(** [for j := 0; j < i; j++ { _ = c.levels[j].Set(ctx, key, value, ttl) }]
    from [j] on; [fuel] is [i - j]. *)
Fixpoint backfill (levels : list (Cache W V)) (j fuel : nat)
    (key : string) (v : V) (ttl : Z) : M W unit :=
  match fuel with
  | O => ret tt
  | S fuel' =>
      match levels !! j with
      | Some level =>
          do _ <- Set_ level key v ttl ;;
          backfill levels (S j) fuel' key v ttl
      | None => ret tt
      end
  end.

(** The loop of [Get] over [rest], the levels from index [i] on. *)
Fixpoint Get_loop (levels : list (Cache W V)) (i : nat)
    (rest : list (Cache W V)) (key : string) (out : V)
    : M W (V * option error) :=
  match rest with
  | [] => ret (out, Some (NotFoundError key))
  | level :: rest' =>
      do '(out', err) <- Get level key out ;;
      match err with
      | None =>
          if (0 <? i)%nat then
            do '(ttl, _) <- TTL level key ;;
            if 0 <? ttl then
              do _ <- backfill levels 0 i key out' ttl ;;
              ret (out', None)
            else ret (out', None)
          else ret (out', None)
      | Some _ => Get_loop levels (S i) rest' key out'
      end
  end.

Definition multiLevelCache_Get (levels : list (Cache W V))
    (key : string) (out : V) : M W (V * option error) :=
  Get_loop levels 0 levels key out.

Definition multiLevelCache_Set (levels : list (Cache W V))
    (key : string) (v : V) (ttl : Z) : M W (option error) :=
  fan_out None (map (fun level => Set_ level key v ttl) levels).

Definition multiLevelCache_Delete (levels : list (Cache W V))
    (key : string) : M W (option error) :=
  fan_out None (map (fun level => Delete level key) levels).

Fixpoint multiLevelCache_Exists (levels : list (Cache W V))
    (key : string) : M W (bool * option error) :=
  match levels with
  | [] => ret (false, None)
  | level :: levels' =>
      do '(exists_, err) <- Exists level key ;;
      if err is None then
        if exists_ then ret (true, None)
        else multiLevelCache_Exists levels' key
      else multiLevelCache_Exists levels' key
  end.

(** The inner loop of [MGet]: split [remainingKeys] by [values]. *)
Fixpoint collect (values : gmap string V) (remainingKeys : list string)
    (result : gmap string V) (notFoundKeys : list string)
    : gmap string V * list string :=
  match remainingKeys with
  | [] => (result, notFoundKeys)
  | key :: keys' =>
      match values !! key with
      | Some v => collect values keys' (<[key := v]> result) notFoundKeys
      | None => collect values keys' result (notFoundKeys ++ [key])
      end
  end.

Fixpoint MGet_loop (levels : list (Cache W V))
    (remainingKeys : list string) (result : gmap string V)
    : M W (gmap string V * option error) :=
  match levels with
  | [] => ret (result, None)
  | level :: levels' =>
      if (length remainingKeys =? 0)%nat then ret (result, None)
      else
        do '(values, err) <- MGet level remainingKeys ;;
        match err with
        | Some _ => MGet_loop levels' remainingKeys result
        | None =>
            let '(result', notFoundKeys) :=
              collect values remainingKeys result [] in
            MGet_loop levels' notFoundKeys result'
        end
  end.

Definition multiLevelCache_MGet (levels : list (Cache W V))
    (keys : list string) : M W (gmap string V * option error) :=
  MGet_loop levels keys ∅.

Definition multiLevelCache_MSet (levels : list (Cache W V))
    (items : gmap string V) (ttl : Z) : M W (option error) :=
  fan_out None (map (fun level => MSet level items ttl) levels).

Definition multiLevelCache_MDelete (levels : list (Cache W V))
    (keys : list string) : M W (option error) :=
  fan_out None (map (fun level => MDelete level keys) levels).

(** [c.levels[len(c.levels)-1]] under the guard [len(c.levels) > 0]. *)
Definition multiLevelCache_Incr (levels : list (Cache W V))
    (key : string) : M W (Z * option error) :=
  match last levels with
  | Some level => Incr level key
  | None => ret (0, None)
  end.

Definition multiLevelCache_IncrBy (levels : list (Cache W V))
    (key : string) (n : Z) : M W (Z * option error) :=
  match last levels with
  | Some level => IncrBy level key n
  | None => ret (0, None)
  end.

Definition multiLevelCache_Decr (levels : list (Cache W V))
    (key : string) : M W (Z * option error) :=
  match last levels with
  | Some level => Decr level key
  | None => ret (0, None)
  end.

Definition multiLevelCache_DecrBy (levels : list (Cache W V))
    (key : string) (n : Z) : M W (Z * option error) :=
  match last levels with
  | Some level => DecrBy level key n
  | None => ret (0, None)
  end.

(** [for i := 0; i < len(c.levels)-1; i++ { _ = c.levels[i].Set(...) }] *)
Definition multiLevelCache_SetNX (levels : list (Cache W V))
    (key : string) (v : V) (ttl : Z) : M W (bool * option error) :=
  match last levels with
  | Some level =>
      do '(result, err) <- SetNX level key v ttl ;;
      match err with
      | Some e => ret (false, Some e)
      | None =>
          if result then
            do _ <- backfill levels 0 (length levels - 1) key v ttl ;;
            ret (result, None)
          else ret (result, None)
      end
  | None => ret (false, None)
  end.

Definition multiLevelCache_Expire (levels : list (Cache W V))
    (key : string) (ttl : Z) : M W (option error) :=
  fan_out None (map (fun level => Expire level key ttl) levels).

Definition multiLevelCache_TTL (levels : list (Cache W V))
    (key : string) : M W (Z * option error) :=
  match last levels with
  | Some level => TTL level key
  | None => ret (-2, None)
  end.

Definition multiLevelCache_Close (levels : list (Cache W V))
    : M W (option error) :=
  fan_out None (map Close levels).

Fixpoint multiLevelCache_Ping (levels : list (Cache W V))
    : M W (option error) :=
  match levels with
  | [] => ret None
  | level :: levels' =>
      do err <- Ping level ;;
      if err is Some _ then ret err else multiLevelCache_Ping levels'
  end.

(** [NewMultiLevelCache(WithLevels(levels...))]: the orchestrator is a
    [Cache] again, so orchestrators nest. *)
Definition NewMultiLevelCache (levels : list (Cache W V)) : Cache W V := {|
  Get := multiLevelCache_Get levels;
  Set_ := multiLevelCache_Set levels;
  Delete := multiLevelCache_Delete levels;
  Exists := multiLevelCache_Exists levels;
  MGet := multiLevelCache_MGet levels;
  MSet := multiLevelCache_MSet levels;
  MDelete := multiLevelCache_MDelete levels;
  Incr := multiLevelCache_Incr levels;
  IncrBy := multiLevelCache_IncrBy levels;
  Decr := multiLevelCache_Decr levels;
  DecrBy := multiLevelCache_DecrBy levels;
  SetNX := multiLevelCache_SetNX levels;
  Expire := multiLevelCache_Expire levels;
  TTL := multiLevelCache_TTL levels;
  Close := multiLevelCache_Close levels;
  Ping := multiLevelCache_Ping levels
|}.

(** The error a caller of a fan-out sees, in the words of the design:
    the last error encountered across the tiers, [nil] if no tier
    failed. *)
Definition last_error (errs : list (option error)) : option error :=
  last (omap id errs).

End multiLevelCache.

(** *** Reading the orchestrator's loops *)

Section probing.
Context {W V : Type}.

(** [misses tiers key out w out' w']: probed in order from the world [w]
    with the destination [out], every tier of [tiers] returns an error
    from [Get]; the probing leaves the destination [out'] and the world
    [w']. *)
Inductive misses :
    list (Cache W V) -> string -> V -> W -> V -> W -> Prop :=
  | misses_nil key out w : misses [] key out w out w
  | misses_cons level tiers key out w out1 e w1 out' w' :
      Get level key out w = ((out1, Some e), w1) ->
      misses tiers key out1 w1 out' w' ->
      misses (level :: tiers) key out w out' w'.

End probing.

(** *** Scripted tiers *)

(** A call as a tier receives it. *)
Inductive Call (V : Type) : Type :=
  | CallGet (key : string)
  | CallSet (key : string) (v : V) (ttl : Z)
  | CallDelete (key : string)
  | CallExists (key : string)
  | CallMGet (keys : list string)
  | CallMSet (items : gmap string V) (ttl : Z)
  | CallMDelete (keys : list string)
  | CallIncr (key : string)
  | CallIncrBy (key : string) (n : Z)
  | CallDecr (key : string)
  | CallDecrBy (key : string) (n : Z)
  | CallSetNX (key : string) (v : V) (ttl : Z)
  | CallExpire (key : string) (ttl : Z)
  | CallTTL (key : string)
  | CallClose
  | CallPing.

Arguments CallGet {V} _.
Arguments CallSet {V} _ _ _.
Arguments CallDelete {V} _.
Arguments CallExists {V} _.
Arguments CallMGet {V} _.
Arguments CallMSet {V} _ _.
Arguments CallMDelete {V} _.
Arguments CallIncr {V} _.
Arguments CallIncrBy {V} _ _.
Arguments CallDecr {V} _.
Arguments CallDecrBy {V} _ _.
Arguments CallSetNX {V} _ _ _.
Arguments CallExpire {V} _ _.
Arguments CallTTL {V} _.
Arguments CallClose {V}.
Arguments CallPing {V}.

(** What a scripted tier answers: [reply_Get] is the value it stores into
    the destination, if any, and its error; [reply_write] is the error of
    every call that returns only an error. *)
Record Replies (V : Type) : Type := {
  reply_Get : option V * option error;
  reply_write : option error;
  reply_Exists : bool * option error;
  reply_MGet : gmap string V * option error;
  reply_count : Z * option error;
  reply_SetNX : bool * option error;
  reply_TTL : Z * option error
}.

Arguments reply_Get {V} _.
Arguments reply_write {V} _.
Arguments reply_Exists {V} _.
Arguments reply_MGet {V} _.
Arguments reply_count {V} _.
Arguments reply_SetNX {V} _.
Arguments reply_TTL {V} _.

Section scripted.
Context {V : Type}.

(** The world of scripted tiers is the log of the calls made so far, each
    with the number of the tier that received it. *)
Definition logged {A} (id : nat) (call : Call V) (a : A)
    : M (list (nat * Call V)) A :=
  fun log => (a, log ++ [(id, call)]).

(** A [Cache] that logs each call and answers by its script: any
    implementation of the interface that a caller may configure, such as
    a network tier whose driver fails. *)
Definition scripted (id : nat) (r : Replies V)
    : Cache (list (nat * Call V)) V := {|
  Get key out :=
    logged id (CallGet key)
      (default out (fst (reply_Get r)), snd (reply_Get r));
  Set_ key v ttl := logged id (CallSet key v ttl) (reply_write r);
  Delete key := logged id (CallDelete key) (reply_write r);
  Exists key := logged id (CallExists key) (reply_Exists r);
  MGet keys := logged id (CallMGet keys) (reply_MGet r);
  MSet items ttl := logged id (CallMSet items ttl) (reply_write r);
  MDelete keys := logged id (CallMDelete keys) (reply_write r);
  Incr key := logged id (CallIncr key) (reply_count r);
  IncrBy key n := logged id (CallIncrBy key n) (reply_count r);
  Decr key := logged id (CallDecr key) (reply_count r);
  DecrBy key n := logged id (CallDecrBy key n) (reply_count r);
  SetNX key v ttl := logged id (CallSetNX key v ttl) (reply_SetNX r);
  Expire key ttl := logged id (CallExpire key ttl) (reply_write r);
  TTL key := logged id (CallTTL key) (reply_TTL r);
  Close := logged id CallClose (reply_write r);
  Ping := logged id CallPing (reply_write r)
|}.

(** A tier that holds nothing and never fails. *)
Definition empty_replies : Replies V := {|
  reply_Get := (None, Some ErrNotFound);
  reply_write := None;
  reply_Exists := (false, None);
  reply_MGet := (∅, None);
  reply_count := (0, None);
  reply_SetNX := (true, None);
  reply_TTL := (-2, None)
|}.

(** A tier whose every call fails with the error [e] and Go's zero
    values. *)
Definition failing_replies (e : error) : Replies V := {|
  reply_Get := (None, Some e);
  reply_write := Some e;
  reply_Exists := (false, Some e);
  reply_MGet := (∅, Some e);
  reply_count := (0, Some e);
  reply_SetNX := (false, Some e);
  reply_TTL := (0, Some e)
|}.

(** A tier that holds the value [v] with [ttl] left under every key. *)
Definition holding_replies (v : V) (ttl : Z * option error) : Replies V := {|
  reply_Get := (Some v, None);
  reply_write := None;
  reply_Exists := (true, None);
  reply_MGet := (∅, None);
  reply_count := (0, None);
  reply_SetNX := (false, None);
  reply_TTL := ttl
|}.

(** A tier that answers [MGet] with [values] and holds nothing else. *)
Definition batch_replies (values : gmap string V) : Replies V := {|
  reply_Get := (None, Some ErrNotFound);
  reply_write := None;
  reply_Exists := (false, None);
  reply_MGet := (values, None);
  reply_count := (0, None);
  reply_SetNX := (false, None);
  reply_TTL := (-2, None)
|}.

End scripted.

(* ===================================================================== *)
(** ** The batch operations of the in-process store                       *)
(* ===================================================================== *)

Section memory_batch.
Context {V : Type} `{JSON V}.

(** The loop of [MGet] from the [i]-th key on: [nowAt i] is the clock
    reading of the [isExpired] call on the [i]-th key, and [zero] is the nil
    [interface{}] that every decode starts from.  A key that is absent,
    expired, or does not decode contributes nothing. *)
Fixpoint MGet_range (zero : V) (c : memoryCache) (nowAt : nat -> Z) (i : nat)
    (keys : list string) (result : gmap string V) : gmap string V :=
  match keys with
  | [] => result
  | key :: keys' =>
      let result' :=
        match c !! key with
        | Some item =>
            if negb (isExpired item (nowAt i)) then
              let '(v, err) := json_Unmarshal (value item) zero in
              if err is None then <[key := v]> result else result
            else result
        | None => result
        end in
      MGet_range zero c nowAt (S i) keys' result'
  end.

Definition memoryCache_MGet (zero : V) (c : memoryCache) (nowAt : nat -> Z)
    (keys : list string) : gmap string V * option error :=
  (MGet_range zero c nowAt 0 keys ∅, None).

(** The loop of [MSet] from the [i]-th visited item on.  Go ranges over the
    [items] map in an order of its own choosing; [items] is the list of the
    map's entries in the order of this visit, and [nowAt i] is the clock
    reading taken for the [i]-th of them.  The first value that does not
    encode ends the loop with its error; what was stored before stays. *)
Fixpoint MSet_range (c : memoryCache) (nowAt : nat -> Z) (i : nat)
    (items : list (string * V)) (ttl : Z) : option error * memoryCache :=
  match items with
  | [] => (None, c)
  | (key, v) :: items' =>
      let '(data, err) := json_Marshal v in
      match err with
      | Some e => (Some e, c)
      | None =>
          let item :=
            {| value := data;
               expiresAt := if 0 <? ttl then Add (nowAt i) ttl else 0 |} in
          MSet_range (<[key := item]> c) nowAt (S i) items' ttl
      end
  end.

Definition memoryCache_MSet (c : memoryCache) (nowAt : nat -> Z)
    (items : list (string * V)) (ttl : Z) : option error * memoryCache :=
  MSet_range c nowAt 0 items ttl.

End memory_batch.

(** [Ping] of the in-process store. *)
Definition memoryCache_Ping : option error := None.

(* ===================================================================== *)
(** ** In-process stores as tiers                                         *)
(* ===================================================================== *)

(** The world of an orchestrator over in-process stores: the stores, one
    per tier, and the clock.  [clock n] is the [n]-th reading of the clock
    and [reads] counts the readings taken so far. *)
Record World : Type := {
  stores : list memoryCache;
  clock : nat -> Z;
  reads : nat
}.

(** The [i]-th next reading of the clock. *)
Definition reading (w : World) (i : nat) : Z := clock w (reads w + i)%nat.

(** The store of tier [id]. *)
Definition store (id : nat) (w : World) : memoryCache :=
  default ∅ (stores w !! id).

(** Tier [id] holds [c] from now on and [n] more readings were taken. *)
Definition put (id : nat) (c : memoryCache) (n : nat) (w : World) : World :=
  {| stores := <[id := c]> (stores w);
     clock := clock w;
     reads := (reads w + n)%nat |}.

Definition tick (n : nat) (w : World) : World :=
  {| stores := stores w; clock := clock w; reads := (reads w + n)%nat |}.

Section memoryTier.
Context {V : Type} `{JSON V}.

(** The in-process store number [id] of the world behind the [Cache]
    interface.  Each call takes its readings from the clock in the order
    the code takes them; the clock moves on by the largest number of
    readings the call can take, also on a path that takes fewer.  [zero] is
    the nil [interface{}] and [rangeOrder] the order in which [MSet] visits
    a map.  [Close] stops the sweep and leaves the entries alone. *)
Definition memoryTier (zero : V)
    (rangeOrder : gmap string V -> list (string * V)) (id : nat)
    : Cache World V := {|
  Get key out := fun w =>
    (memoryCache_Get (store id w) (reading w 0) key out, tick 1 w);
  Set_ key v ttl := fun w =>
    let '(err, c) := memoryCache_Set (store id w) (reading w 0) key v ttl in
    (err, put id c 1 w);
  Delete key := fun w =>
    let '(err, c) := memoryCache_Delete (store id w) key in
    (err, put id c 0 w);
  Exists key := fun w =>
    (memoryCache_Exists (store id w) (reading w 0) key, tick 1 w);
  MGet keys := fun w =>
    (memoryCache_MGet zero (store id w) (reading w) keys,
     tick (length keys) w);
  MSet items ttl := fun w =>
    let '(err, c) :=
      memoryCache_MSet (store id w) (reading w) (rangeOrder items) ttl in
    (err, put id c (length (rangeOrder items)) w);
  MDelete keys := fun w =>
    let '(err, c) := memoryCache_MDelete (store id w) keys in
    (err, put id c 0 w);
  Incr key := fun w =>
    let '(r, c) := memoryCache_Incr (store id w) (reading w 0) key in
    (r, put id c 1 w);
  IncrBy key n := fun w =>
    let '(r, c) := memoryCache_IncrBy (store id w) (reading w 0) key n in
    (r, put id c 1 w);
  Decr key := fun w =>
    let '(r, c) := memoryCache_Decr (store id w) (reading w 0) key in
    (r, put id c 1 w);
  DecrBy key n := fun w =>
    let '(r, c) := memoryCache_DecrBy (store id w) (reading w 0) key n in
    (r, put id c 1 w);
  SetNX key v ttl := fun w =>
    let '(r, c) :=
      memoryCache_SetNX (store id w) (reading w 0) (reading w 1) key v ttl in
    (r, put id c 2 w);
  Expire key ttl := fun w =>
    let '(err, c) := memoryCache_Expire (store id w) (reading w 0) key ttl in
    (err, put id c 1 w);
  TTL key := fun w =>
    (memoryCache_TTL (store id w) (reading w 0) (reading w 1) key, tick 2 w);
  Close := fun w => (None, w);
  Ping := fun w => (memoryCache_Ping, w)
|}.

End memoryTier.

(** *** Reading the other loops of the orchestrator *)

Section skipping.
Context {W V : Type}.

(** [none_exists tiers key w w']: asked in order from the world [w], every
    tier of [tiers] answers [Exists] with false or with an error; the
    asking leaves the world [w']. *)
Inductive none_exists : list (Cache W V) -> string -> W -> W -> Prop :=
  | none_exists_nil key w : none_exists [] key w w
  | none_exists_cons level tiers key w b err w1 w' :
      Exists level key w = ((b, err), w1) ->
      b = false \/ err <> None ->
      none_exists tiers key w1 w' ->
      none_exists (level :: tiers) key w w'.

(** [all_pong tiers w w']: pinged in order from the world [w], every tier of
    [tiers] answers with a nil error; the pinging leaves the world [w']. *)
Inductive all_pong : list (Cache W V) -> W -> W -> Prop :=
  | all_pong_nil w : all_pong [] w w
  | all_pong_cons level tiers w w1 w' :
      Ping level w = (None, w1) ->
      all_pong tiers w1 w' ->
      all_pong (level :: tiers) w w'.

(** [asked tiers keys w keys' w']: the loop of [MGet] run over [tiers] from
    the world [w] with [keys] to look for leaves the world [w'] and still
    looks for [keys'].  With no key left no tier is called; a tier whose
    [MGet] fails leaves the keys as they are; a tier that answers leaves
    the keys that its answer does not hold. *)
Inductive asked
    : list (Cache W V) -> list string -> W -> list string -> W -> Prop :=
  | asked_nil keys w : asked [] keys w keys w
  | asked_break level tiers w : asked (level :: tiers) [] w [] w
  | asked_fail level tiers keys w values e w1 keys' w' :
      keys <> [] ->
      MGet level keys w = ((values, Some e), w1) ->
      asked tiers keys w1 keys' w' ->
      asked (level :: tiers) keys w keys' w'
  | asked_answer level tiers keys w values w1 keys' w' :
      keys <> [] ->
      MGet level keys w = ((values, None), w1) ->
      asked tiers (filter (fun key => values !! key = None) keys) w1
        keys' w' ->
      asked (level :: tiers) keys w keys' w'.

End skipping.

(* ===================================================================== *)
(** * Properties                                                          *)
(* ===================================================================== *)

(** ** The error taxonomy *)

Lemma errors_As_in_chain (e : error) :
  is_Some (errors_As_NotFoundError e) <->
  exists Key, in_chain (NotFoundError Key) e.
Proof.
  induction e as [| Key | s | msg e IH]; simpl.
  - split; [intros [? ?]; discriminate | intros [Key H]; inversion H].
  - split; [intros _; exists Key; constructor | eauto].
  - split; [intros [? ?]; discriminate | intros [Key H]; inversion H].
  - rewrite IH. split; intros [Key H]; exists Key.
    + by constructor.
    + by inversion H.
Qed.

Lemma errors_Is_in_chain (e : error) :
  errors_Is_ErrNotFound e = true <-> in_chain ErrNotFound e.
Proof.
  induction e as [| Key | s | msg e IH]; simpl.
  - split; [intros _; constructor | done].
  - split; [done | intros H; inversion H].
  - split; [done | intros H; inversion H].
  - rewrite IH. split; intros H; [by constructor | by inversion H].
Qed.

Lemma String_eqb_true (s t : string) : String.eqb s t = true <-> s = t.
Proof. apply String.eqb_eq. Qed.

(** C8, as the code has it.  [IsNotFound] is false for [nil]; for an error
    [e] it is true exactly when the [Unwrap] chain of [e] holds a typed
    [NotFoundError] or the sentinel [ErrNotFound] (so [e] may be such an
    error or wrap one), or when the message of [e] itself is "redis: nil".
    The typed error renders as "cache: key not found: <key>" and the
    sentinel as "cache: key not found". *)
Theorem IsNotFound_exactly :
  IsNotFound None = false /\
  (forall e : error,
     IsNotFound (Some e) = true <->
     ((exists Key, in_chain (NotFoundError Key) e) \/
      in_chain ErrNotFound e \/
      Error e = "redis: nil")) /\
  (forall Key, Error (NotFoundError Key) = "cache: key not found: " +:+ Key) /\
  Error ErrNotFound = "cache: key not found".
Proof.
  split; [done |]. split; [| done].
  intros e. rewrite <- errors_As_in_chain, <- errors_Is_in_chain.
  rewrite <- String_eqb_true. unfold IsNotFound.
  destruct (errors_As_NotFoundError e) as [Key |] eqn:HAs.
  { split; [intros _; left; eauto | done]. }
  destruct (errors_Is_ErrNotFound e) eqn:HIs.
  { split; [intros _; right; left; done | done]. }
  destruct (String.eqb (Error e) "redis: nil") eqn:Hmsg.
  { split; [intros _; right; right; done | done]. }
  split; [done |].
  intros [[Key HKey] | [H | H]]; discriminate.
Qed.

(** C8 as worded does not hold: an error that wraps the sentinel is none
    of the three listed errors, and [IsNotFound] is true for it. *)
Lemma IsNotFound_wrapped_sentinel :
  let e := wrapError "get user: cache: key not found" ErrNotFound in
  IsNotFound (Some e) = true /\
  (forall Key, e <> NotFoundError Key) /\
  e <> ErrNotFound /\
  Error e <> "redis: nil".
Proof. repeat split; done. Qed.

(** ** The in-process store *)

Lemma isExpired_true (item : cacheItem) (now : Z) :
  isExpired item now = true <-> expiresAt item <> 0 /\ expiresAt item < now.
Proof.
  unfold isExpired, IsZero, After.
  destruct (Z.eqb_spec (expiresAt item) 0) as [-> | Hne].
  - split; [done | intros [? _]; done].
  - rewrite Z.ltb_lt. tauto.
Qed.

Lemma isExpired_false (item : cacheItem) (now : Z) :
  isExpired item now = false <-> expiresAt item = 0 \/ now <= expiresAt item.
Proof.
  rewrite <- not_true_iff_false, isExpired_true.
  destruct (decide (expiresAt item = 0)); lia.
Qed.

(** Once expired, always expired: the clock does not run backwards. *)
Lemma isExpired_mono (item : cacheItem) (now now' : Z) :
  now <= now' -> isExpired item now = true -> isExpired item now' = true.
Proof. rewrite !isExpired_true. lia. Qed.

Lemma cleanup_lookup (c : memoryCache) (nowOf : string -> Z) (key : string) :
  cleanup c nowOf !! key =
  match c !! key with
  | Some item => if isExpired item (nowOf key) then None else Some item
  | None => None
  end.
Proof.
  unfold cleanup.
  destruct (c !! key) as [item |] eqn:Hc.
  - destruct (isExpired item (nowOf key)) eqn:Hexp.
    + apply map_lookup_filter_None. right. intros item' Hc' Hkeep.
      simpl in Hkeep. congruence.
    + apply map_lookup_filter_Some. done.
  - apply map_lookup_filter_None. by left.
Qed.

Section memory_values.
Context {V : Type} `{JSON V}.

(** A sweep that ran no later than a read does not change what the read
    returns: it removes only entries the read treats as absent anyway. *)
Lemma Get_cleanup (c : memoryCache) (nowOf : string -> Z)
    (now : Z) (key : string) (out : V) :
  nowOf key <= now ->
  memoryCache_Get (cleanup c nowOf) now key out = memoryCache_Get c now key out.
Proof.
  intros Hle. unfold memoryCache_Get. rewrite cleanup_lookup.
  destruct (c !! key) as [item |]; [| done].
  destruct (isExpired item (nowOf key)) eqn:Hexp; [| done].
  by rewrite (isExpired_mono _ _ _ Hle Hexp).
Qed.

Lemma Get_cleanups (sweeps : list (string -> Z)) (c : memoryCache)
    (now : Z) (key : string) (out : V) :
  Forall (fun nowOf => nowOf key <= now) sweeps ->
  memoryCache_Get (foldl cleanup c sweeps) now key out =
  memoryCache_Get c now key out.
Proof.
  intros Hs. revert c.
  induction Hs as [| nowOf sweeps Hle _ IH]; intros c; simpl; [done |].
  rewrite IH. by apply Get_cleanup.
Qed.

(** C4.  Let [Set(k, v, ttl)] with [ttl > 0] run when the clock reads
    [t0], for a value [v] that encodes to [data] and decodes from it into
    the destination without loss.  The call returns nil.  A [Get(k)]
    before the ttl has elapsed (clock at most [t0 + ttl]) returns [v] with
    a nil error; a [Get(k)] after the ttl has elapsed (clock past
    [t0 + ttl]) returns the typed NotFound error, which [IsNotFound]
    accepts.  Both hold whatever passes of the background sweep ran
    between the [Set] and the [Get]. *)
Theorem Set_Get_ttl (c : memoryCache) (k : string) (v out : V)
    (data : bytes) (ttl t0 : Z) :
  0 < ttl ->
  0 <= t0 ->
  json_Marshal v = (data, None) ->
  json_Unmarshal data out = (v, None) ->
  fst (memoryCache_Set c t0 k v ttl) = None /\
  forall (sweeps : list (string -> Z)) (t : Z),
    Forall (fun nowOf => nowOf k <= t) sweeps ->
    let c' := foldl cleanup (snd (memoryCache_Set c t0 k v ttl)) sweeps in
    (t <= t0 + ttl -> memoryCache_Get c' t k out = (v, None)) /\
    (t0 + ttl < t ->
       memoryCache_Get c' t k out = (out, Some (NotFoundError k)) /\
       IsNotFound (snd (memoryCache_Get c' t k out)) = true).
Proof.
  intros Httl Ht0 Hm Hu. unfold memoryCache_Set. rewrite Hm.
  cbv zeta. split; [done |]. intros sweeps t Hs.
  rewrite (Get_cleanups _ _ _ _ _ Hs). simpl.
  unfold memoryCache_Get. rewrite lookup_insert_eq.
  assert ((0 <? ttl) = true) as -> by lia.
  split.
  - intros Hle.
    assert (isExpired {| value := data; expiresAt := Add t0 ttl |} t = false)
      as -> by (apply isExpired_false; unfold Add; simpl; lia).
    done.
  - intros Hlt.
    assert (isExpired {| value := data; expiresAt := Add t0 ttl |} t = true)
      as -> by (apply isExpired_true; unfold Add; simpl; lia).
    done.
Qed.

End memory_values.

(** C4 at a concrete input: the int64 value 42 under "k" for 5ns at clock
    100, one sweep in between. *)
Lemma Set_Get_ttl_witness :
  fst (memoryCache_Set NewMemoryCache 100 "k" 42 5) = None /\
  memoryCache_Get
    (cleanup (snd (memoryCache_Set NewMemoryCache 100 "k" 42 5)) (fun _ => 103))
    104 "k" 0 = (42, None) /\
  memoryCache_Get
    (cleanup (snd (memoryCache_Set NewMemoryCache 100 "k" 42 5)) (fun _ => 106))
    107 "k" 0 = (0, Some (NotFoundError "k")).
Proof.
  pose proof (Set_Get_ttl NewMemoryCache "k" 42 0 (format_int 42) 5 100
                ltac:(lia) ltac:(lia) eq_refl eq_refl) as [Hset Hget].
  split; [exact Hset |]. split.
  - refine (proj1 (Hget [fun _ => 103] 104 _) _); [| lia].
    constructor; [simpl; lia | constructor].
  - refine (proj1 (proj2 (Hget [fun _ => 106] 107 _) _)); [| lia].
    constructor; [simpl; lia | constructor].
Defined.

Section memory_SetNX.
Context {V : Type} `{JSON V}.

(** C5.  [SetNX] writes only when the key is absent or expired (and the
    value encodes), returns true exactly when it wrote, and otherwise
    leaves the map as it was.  Hence on a key that is fresh (or expired)
    a first [SetNX(k, v1, ttl)] returns [(true, nil)]; a second
    [SetNX(k, v2, ttl)] while the entry is unexpired returns
    [(false, nil)] and changes nothing, and [Get(k)] still yields [v1]. *)
Theorem SetNX_creates_once :
  (forall (c : memoryCache) (now1 now2 : Z) (k : string) (v : V) (ttl : Z),
     let r := memoryCache_SetNX c now1 now2 k v ttl in
     let fresh :=
       c !! k = None \/
       exists item, c !! k = Some item /\ isExpired item now1 = true in
     (fst (fst r) = true <-> fresh /\ snd (json_Marshal v) = None) /\
     (fst (fst r) = true ->
        snd (fst r) = None /\
        snd r = <[k := {| value := fst (json_Marshal v);
                          expiresAt := if 0 <? ttl then now2 + ttl else 0 |}]> c) /\
     (fst (fst r) = false -> snd r = c) /\
     (~ fresh -> r = ((false, None), c))) /\
  (forall (c : memoryCache) (k : string) (v1 v2 out : V) (data : bytes)
          (ttl t1 t1' t2 t2' t : Z),
     0 <= t1' ->
     json_Marshal v1 = (data, None) ->
     json_Unmarshal data out = (v1, None) ->
     (c !! k = None \/
      exists item, c !! k = Some item /\ isExpired item t1 = true) ->
     (ttl <= 0 \/ (t2 <= t1' + ttl /\ t <= t1' + ttl)) ->
     let r1 := memoryCache_SetNX c t1 t1' k v1 ttl in
     let r2 := memoryCache_SetNX (snd r1) t2 t2' k v2 ttl in
     fst r1 = (true, None) /\
     fst r2 = (false, None) /\
     snd r2 = snd r1 /\
     memoryCache_Get (snd r2) t k out = (v1, None)).
Proof.
  split.
  - intros c now1 now2 k v ttl. cbv zeta. unfold memoryCache_SetNX, Add.
    destruct (c !! k) as [item |] eqn:Hc.
    + destruct (isExpired item now1) eqn:Hexp; simpl.
      * destruct (json_Marshal v) as [data [e |]]; simpl.
        -- repeat split; try done; try (intros [_ ?]; done).
           intros Hn. exfalso. apply Hn. right. eauto.
        -- repeat split; try done.
           ++ right. eauto.
           ++ intros Hn. exfalso. apply Hn. right. eauto.
      * repeat split; try done.
        intros [[? | (item' & Heq & Hexp')] _]; [done |].
        congruence.
    + destruct (json_Marshal v) as [data [e |]]; simpl.
      * repeat split; try done; try (intros [_ ?]; done).
        intros Hn. exfalso. apply Hn. by left.
      * repeat split; try done; [by left |].
        intros Hn. exfalso. apply Hn. by left.
  - intros c k v1 v2 out data ttl t1 t1' t2 t2' t Ht1' Hm Hu Hfresh Hlive.
    cbv zeta.
    assert (memoryCache_SetNX c t1 t1' k v1 ttl =
            ((true, None),
             <[k := {| value := data;
                       expiresAt := if 0 <? ttl then Add t1' ttl else 0 |}]> c))
      as ->.
    { unfold memoryCache_SetNX. rewrite Hm.
      destruct Hfresh as [-> | (item & -> & ->)]; done. }
    simpl.
    set (item := {| value := data;
                    expiresAt := if 0 <? ttl then Add t1' ttl else 0 |}).
    assert (forall now, (ttl <= 0 \/ now <= t1' + ttl) ->
                        isExpired item now = false) as Hitem.
    { intros now Hnow. apply isExpired_false. subst item. simpl. unfold Add.
      destruct (Z.ltb_spec 0 ttl); lia. }
    assert (memoryCache_SetNX (<[k := item]> c) t2 t2' k v2 ttl =
            ((false, None), <[k := item]> c)) as ->.
    { unfold memoryCache_SetNX. rewrite lookup_insert_eq.
      rewrite Hitem by lia. done. }
    simpl. repeat split.
    unfold memoryCache_Get. rewrite lookup_insert_eq.
    rewrite Hitem by lia. exact Hu.
Qed.

End memory_SetNX.

(** C5 at a concrete input: 7 then 8 under "lock" for 60ns. *)
Lemma SetNX_creates_once_witness :
  fst (memoryCache_SetNX NewMemoryCache 100 100 "lock" 7 60) = (true, None) /\
  fst (memoryCache_SetNX
         (snd (memoryCache_SetNX NewMemoryCache 100 100 "lock" 7 60))
         110 110 "lock" 8 60) = (false, None) /\
  memoryCache_Get
    (snd (memoryCache_SetNX
            (snd (memoryCache_SetNX NewMemoryCache 100 100 "lock" 7 60))
            110 110 "lock" 8 60))
    120 "lock" 0 = (7, None).
Proof.
  pose proof (proj2 (@SetNX_creates_once Z JSON_int64)
                NewMemoryCache "lock" 7 8 0 (format_int 7) 60 100 100 110 110 120
                ltac:(lia) eq_refl eq_refl (or_introl eq_refl)
                ltac:(right; lia)) as (H1 & H2 & _ & H4).
  exact (conj H1 (conj H2 H4)).
Defined.

Lemma Until_in_range (t now : Z) :
  is_int64 (t - now) -> Until t now = t - now.
Proof. unfold is_int64, Until, Sub. lia. Qed.

Lemma Until_pos (t now : Z) : 0 < Until t now <-> now < t.
Proof. unfold Until, Sub, minInt64, maxInt64. lia. Qed.

Section memory_TTL.
Context {V : Type} `{JSON V}.

(** C6, as the code has it.  [TTL(k)] always returns a nil error.  It
    returns -2 when [k] is absent or its entry has expired, -1 when the
    entry has no expiration (as after a [Set] with [ttl <= 0]), and
    otherwise the entry's expiration minus the clock reading of
    [time.Until] (saturated to a Duration).  That last value is positive
    exactly while the clock reads before the expiration, and it is 0 when
    the clock reads the expiration instant itself: [isExpired] is a
    strict comparison, so the entry is still present then. *)
Theorem TTL_cases (c : memoryCache) (now1 now2 : Z) (k : string) :
  let r := memoryCache_TTL c now1 now2 k in
  snd r = None /\
  (c !! k = None -> fst r = -2) /\
  (forall item, c !! k = Some item ->
     (expiresAt item = 0 -> fst r = -1) /\
     (isExpired item now1 = true -> fst r = -2) /\
     (expiresAt item <> 0 -> isExpired item now1 = false ->
        fst r = Until (expiresAt item) now2 /\
        (is_int64 (expiresAt item - now2) -> fst r = expiresAt item - now2) /\
        (0 < fst r <-> now2 < expiresAt item) /\
        (now2 = expiresAt item -> fst r = 0))) /\
  (forall (c0 : memoryCache) (t0 ttl : Z) (v : V) (data : bytes),
     ttl <= 0 ->
     json_Marshal v = (data, None) ->
     memoryCache_TTL (snd (memoryCache_Set c0 t0 k v ttl)) now1 now2 k
     = (-1, None)).
Proof.
  cbv zeta. unfold memoryCache_TTL. split; [| split; [| split]].
  - destruct (c !! k) as [item |]; [| done].
    destruct (IsZero (expiresAt item)); [done |].
    by destruct (isExpired item now1).
  - by intros ->.
  - intros item ->. split; [| split].
    + intros ->. done.
    + intros Hexp. pose proof Hexp as [Hne _]%isExpired_true.
      unfold IsZero. destruct (Z.eqb_spec (expiresAt item) 0); [done |].
      by rewrite Hexp.
    + intros Hne Hexp. unfold IsZero.
      destruct (Z.eqb_spec (expiresAt item) 0); [done |].
      rewrite Hexp. simpl. split; [done |]. split; [| split].
      * apply Until_in_range.
      * apply Until_pos.
      * intros ->. unfold Until, Sub, minInt64, maxInt64. lia.
  - intros c0 t0 ttl v data Httl Hm. unfold memoryCache_Set. rewrite Hm.
    simpl. rewrite lookup_insert_eq. simpl.
    assert ((0 <? ttl) = false) as -> by lia. done.
Qed.

End memory_TTL.

(** C6 at a concrete input: an entry set for 5ns at clock 100 is asked for
    its TTL at clock 103. *)
Lemma TTL_cases_witness :
  fst (memoryCache_TTL NewMemoryCache 103 103 "k") = -2 /\
  fst (memoryCache_TTL (snd (memoryCache_Set NewMemoryCache 100 "k" 42 5))
         103 103 "k") = 2 /\
  memoryCache_TTL (snd (memoryCache_Set NewMemoryCache 100 "k" 42 0))
    103 103 "k" = (-1, None).
Proof.
  split; [| split].
  - exact (proj1 (proj2 (@TTL_cases Z JSON_int64 NewMemoryCache 103 103 "k"))
             eq_refl).
  - pose proof (proj1 (proj2 (proj2
      (@TTL_cases Z JSON_int64
         (snd (memoryCache_Set NewMemoryCache 100 "k" 42 5)) 103 103 "k"))))
      as Hitem.
    destruct (Hitem {| value := format_int 42; expiresAt := 105 |} eq_refl)
      as (_ & _ & Hlive).
    destruct (Hlive ltac:(simpl; lia) eq_refl) as (_ & Hval & _).
    exact (Hval ltac:(unfold is_int64, minInt64, maxInt64; simpl; lia)).
  - exact (proj2 (proj2 (proj2
      (@TTL_cases Z JSON_int64 NewMemoryCache 103 103 "k")))
      NewMemoryCache 100 0 42 (format_int 42) ltac:(lia) eq_refl).
Defined.

(** C6 as worded does not hold at the expiration instant: the entry set
    for 5ns at clock 100 expires at 105; a [TTL] call that checks the
    expiration at clock 104 and measures the remaining time at clock 105
    returns 0, which is neither a sentinel nor positive, and [Get] at clock
    105 still returns the entry. *)
Lemma TTL_zero_at_expiration :
  let c := snd (memoryCache_Set NewMemoryCache 100 "k" 42 5) in
  expiresAt <$> c !! "k" = Some 105 /\
  memoryCache_Get c 105 "k" 0 = (42, None) /\
  memoryCache_TTL c 104 105 "k" = (0, None) /\
  memoryCache_TTL c 105 105 "k" = (0, None) /\
  (0 <? fst (memoryCache_TTL c 104 105 "k")) = false.
Proof. vm_compute. repeat split. Qed.

Section memory_Expire.
Context {V : Type} `{JSON V}.

(** C9, as the code has it.  [Expire] always returns nil and leaves a
    store without the key as it is.  On an existing key, [Expire(k, ttl)]
    with [ttl <= 0] at clock [t] stores the expiration [t + ttl], a time at
    or before [t], and not the "no expiration" marker that [Set] stores for
    [ttl <= 0].  With [ttl < 0] every subsequent read (clock [t' >= t])
    treats the key as absent: [Get] returns NotFound, [Exists] returns
    false and [TTL] returns -2.  With [ttl = 0] this holds for every read
    whose clock reads after [t]; a read at the reading [t] itself still
    sees the key, because [isExpired] is a strict comparison.  The new
    expiration is taken not to be the zero Time itself, which no clock of
    this era can produce with a Duration. *)
Theorem Expire_nonpositive_ttl (c : memoryCache) (k : string)
    (item : cacheItem) (out : V) (ttl t t' t'' : Z) :
  c !! k = Some item ->
  ttl <= 0 ->
  t + ttl <> 0 ->
  t <= t' ->
  let c' := snd (memoryCache_Expire c t k ttl) in
  (forall c0 t0 k0 ttl0, fst (memoryCache_Expire c0 t0 k0 ttl0) = None) /\
  (forall c0 t0 k0 ttl0,
     c0 !! k0 = None -> snd (memoryCache_Expire c0 t0 k0 ttl0) = c0) /\
  c' !! k = Some {| value := value item; expiresAt := t + ttl |} /\
  t + ttl <= t /\
  (ttl < 0 \/ t < t' ->
   memoryCache_Get c' t' k out = (out, Some (NotFoundError k)) /\
   memoryCache_Exists c' t' k = (false, None) /\
   memoryCache_TTL c' t' t'' k = (-2, None)) /\
  (ttl = 0 ->
   memoryCache_Get c' t k out = json_Unmarshal (value item) out /\
   memoryCache_Exists c' t k = (true, None) /\
   memoryCache_TTL c' t t k = (0, None)) /\
  (forall (v : V) (data : bytes),
     json_Marshal v = (data, None) ->
     snd (memoryCache_Set c t k v ttl) !! k
     = Some {| value := data; expiresAt := 0 |}).
Proof.
  intros Hc Httl Hnz Hle. cbv zeta.
  split; [| split].
  { intros c0 t0 k0 ttl0. unfold memoryCache_Expire.
    by destruct (c0 !! k0). }
  { intros c0 t0 k0 ttl0 Hc0. unfold memoryCache_Expire. by rewrite Hc0. }
  unfold memoryCache_Expire. rewrite Hc. simpl. unfold Add.
  set (item' := {| value := value item; expiresAt := t + ttl |}).
  assert (IsZero (expiresAt item') = false) as Hnonzero
    by (unfold IsZero; subst item'; simpl; lia).
  split; [apply lookup_insert_eq |]. split; [lia |].
  unfold memoryCache_Get, memoryCache_Exists, memoryCache_TTL.
  rewrite !lookup_insert_eq, !Hnonzero.
  split; [| split].
  - intros Hpast.
    assert (isExpired item' t' = true) as ->
      by (apply isExpired_true; subst item'; simpl; lia).
    done.
  - intros ->.
    assert (isExpired item' t = false) as ->
      by (apply isExpired_false; subst item'; simpl; lia).
    repeat split. subst item'. simpl.
    unfold Until, Sub, minInt64, maxInt64. f_equal. lia.
  - intros v data Hm. unfold memoryCache_Set. rewrite Hm. simpl.
    rewrite lookup_insert_eq.
    assert ((0 <? ttl) = false) as -> by lia. done.
Qed.

End memory_Expire.

(** C9 at a concrete input: the value 42 stored without expiration, then
    [Expire] with ttl 0 at clock 200 and reads at clock 201. *)
Lemma Expire_nonpositive_ttl_witness :
  let c := snd (memoryCache_Set NewMemoryCache 100 "k" 42 0) in
  let c' := snd (memoryCache_Expire c 200 "k" 0) in
  memoryCache_Get c 201 "k" 0 = (42, None) /\
  memoryCache_Get c' 201 "k" 0 = (0, Some (NotFoundError "k")) /\
  memoryCache_Exists c' 201 "k" = (false, None) /\
  memoryCache_TTL c' 201 201 "k" = (-2, None).
Proof.
  split; [reflexivity |].
  pose proof (@Expire_nonpositive_ttl Z JSON_int64
                (snd (memoryCache_Set NewMemoryCache 100 "k" 42 0)) "k"
                {| value := format_int 42; expiresAt := 0 |} 0 0 200 201 201
                eq_refl ltac:(lia) ltac:(lia) ltac:(lia))
    as (_ & _ & _ & _ & Hpast & _).
  exact (Hpast ltac:(right; lia)).
Defined.

(** C9 as worded does not hold for ttl 0 at the clock reading of the
    [Expire] itself: the expiration is that reading, the comparison of
    [isExpired] is strict, and a [Get] or [Exists] at the same reading
    still finds the entry. *)
Lemma Expire_zero_ttl_same_reading :
  let c := snd (memoryCache_Set NewMemoryCache 100 "k" 42 0) in
  let c' := snd (memoryCache_Expire c 200 "k" 0) in
  expiresAt <$> c' !! "k" = Some 200 /\
  memoryCache_Get c' 200 "k" 0 = (42, None) /\
  memoryCache_Exists c' 200 "k" = (true, None) /\
  memoryCache_TTL c' 200 200 "k" = (0, None).
Proof. repeat split. Qed.

(** ** The counters of the in-process store *)

Lemma wrap64_int64 (n : Z) : is_int64 n -> wrap64 n = n.
Proof.
  unfold is_int64, minInt64, maxInt64, wrap64. intros Hn.
  rewrite Z.mod_small; lia.
Qed.

Lemma wrap64_is_int64 (n : Z) : is_int64 (wrap64 n).
Proof.
  unfold is_int64, minInt64, maxInt64, wrap64.
  pose proof (Z.mod_pos_bound (n + 2 ^ 63) (2 ^ 64) ltac:(lia)). lia.
Qed.

(** A decode into an int64 that fails leaves the destination as it was. *)
Lemma json_Unmarshal_int64_error (data : bytes) (dest : Z) :
  snd (json_Unmarshal_int64 data dest) <> None ->
  fst (json_Unmarshal_int64 data dest) = dest.
Proof.
  unfold json_Unmarshal_int64.
  destruct (decide (trim data = null_literal)); [done |].
  by destruct (parse_int (trim data)).
Qed.

(** *** The int64 literals round-trip *)

Lemma parse_digits_acc (d : Decimal.uint) (p : positive) :
  parse_digits (Z.pos p) (bytes_of_uint d) = Some (Z.pos (Pos.of_uint_acc d p)).
Proof.
  revert p. induction d as [| d IH | d IH | d IH | d IH | d IH | d IH
                            | d IH | d IH | d IH | d IH];
    intros p; simpl; [done | rewrite <- IH; f_equal; lia ..].
Qed.

Lemma parse_digits_of_uint (d : Decimal.uint) :
  parse_digits 0 (bytes_of_uint d) = Some (Z.of_N (Pos.of_uint d)).
Proof.
  induction d as [| d IH | d IH | d IH | d IH | d IH | d IH
                  | d IH | d IH | d IH | d IH];
    simpl; [done | exact IH | apply parse_digits_acc ..].
Qed.

(** [strconv] prints no leading zero. *)
Lemma to_uint_no_leading_zero (p : positive) (d : Decimal.uint) :
  Pos.to_uint p <> Decimal.D0 d.
Proof.
  intros Hp.
  pose proof (DecimalPos.Unsigned.of_to p) as Hof. rewrite Hp in Hof.
  simpl in Hof.
  pose proof (DecimalPos.Unsigned.to_of d) as Hto. rewrite Hof in Hto.
  change (N.to_uint (N.pos p)) with (Pos.to_uint p) in Hto.
  rewrite Hp in Hto.
  destruct d as [| d | d | d | d | d | d | d | d | d | d];
    [exact (DecimalPos.Unsigned.to_uint_nonzero p Hp) | | discriminate ..].
  pose proof (DecimalFacts.nb_digits_unorm (Decimal.D0 d) ltac:(discriminate))
    as Hlen.
  rewrite <- Hto in Hlen. simpl in Hlen. lia.
Qed.

Lemma bytes_of_uint_digits (d : Decimal.uint) :
  Forall (fun b => is_Some (digit_of_byte b)) (bytes_of_uint d).
Proof.
  induction d; simpl; constructor; eauto.
Qed.

Lemma trim_left_no_space (bs : bytes) :
  match bs with b :: _ => is_space b = false | [] => True end ->
  trim_left bs = bs.
Proof. destruct bs as [| b bs]; simpl; [done |]. by intros ->. Qed.

Lemma trim_no_space (bs : bytes) :
  Forall (fun b => is_space b = false) bs -> trim bs = bs.
Proof.
  intros Hbs. unfold trim.
  rewrite (trim_left_no_space bs) by (by destruct Hbs).
  rewrite trim_left_no_space, rev_involutive; [done |].
  apply Forall_rev in Hbs. by destruct Hbs.
Qed.

Lemma digit_not_space (b : byte) :
  is_Some (digit_of_byte b) -> is_space b = false.
Proof. destruct b; simpl; intros [? ?]; done. Qed.

Lemma parse_int_positive (p : positive) :
  is_int64 (Z.pos p) ->
  parse_int (bytes_of_uint (Pos.to_uint p)) = Some (Z.pos p).
Proof.
  intros [Hlo Hhi]. unfold parse_int.
  pose proof (parse_digits_of_uint (Pos.to_uint p)) as Hparse.
  rewrite DecimalPos.Unsigned.of_to in Hparse. simpl in Hparse.
  pose proof (to_uint_no_leading_zero p) as Hlead.
  pose proof (DecimalPos.Unsigned.to_uint_nonnil p) as Hnil.
  assert ((minInt64 <=? Z.pos p) && (Z.pos p <=? maxInt64) = true) as Hrange.
  { apply andb_true_intro. split; lia. }
  destruct (Pos.to_uint p) as [| d | d | d | d | d | d | d | d | d | d];
    simpl in *; try done; try (by rewrite Hparse, Hrange).
  by destruct (Hlead d).
Qed.

Lemma parse_int_negative (p : positive) :
  is_int64 (Z.neg p) ->
  parse_int ("-"%byte :: bytes_of_uint (Pos.to_uint p)) = Some (Z.neg p).
Proof.
  intros [Hlo Hhi]. unfold parse_int.
  pose proof (parse_digits_of_uint (Pos.to_uint p)) as Hparse.
  rewrite DecimalPos.Unsigned.of_to in Hparse. simpl in Hparse.
  pose proof (to_uint_no_leading_zero p) as Hlead.
  pose proof (DecimalPos.Unsigned.to_uint_nonnil p) as Hnil.
  assert ((minInt64 <=? - Z.pos p) && (- Z.pos p <=? maxInt64) = true)
    as Hrange.
  { apply andb_true_intro. split; lia. }
  destruct (Pos.to_uint p) as [| d | d | d | d | d | d | d | d | d | d];
    simpl in *; try done; try (by rewrite Hparse, Hrange).
  by destruct (Hlead d).
Qed.

(** Every int64 decodes from its own encoding. *)
Lemma json_int64_round_trip (n dest : Z) :
  is_int64 n ->
  json_Marshal_int64 n = (format_int n, None) /\
  json_Unmarshal_int64 (format_int n) dest = (n, None).
Proof.
  intros Hn. split; [done |]. unfold json_Unmarshal_int64, format_int.
  destruct n as [| p | p]; simpl Z.to_int; cbv iota.
  - reflexivity.
  - pose proof (bytes_of_uint_digits (Pos.to_uint p)) as Hd.
    rewrite trim_no_space
      by (eapply Forall_impl; [exact Hd | apply digit_not_space]).
    rewrite parse_int_positive by done.
    destruct (decide _) as [Hnull |]; [| done].
    rewrite Hnull in Hd. inversion Hd as [| ? ? [? Hn'] _]. done.
  - pose proof (bytes_of_uint_digits (Pos.to_uint p)) as Hd.
    rewrite trim_no_space.
    2:{ constructor; [done |].
        eapply Forall_impl; [exact Hd | apply digit_not_space]. }
    rewrite parse_int_negative by done.
    destruct (decide _) as [Hnull |]; done.
Qed.

(** The counters on a live entry that holds an int64: the stored number
    plus the delta, with the wrap-around of int64; on an absent or expired
    key: the delta. *)
Lemma IncrBy_adds (c : memoryCache) (now : Z) (k : string) (m n : Z)
    (item : cacheItem) :
  is_int64 m ->
  c !! k = Some item ->
  isExpired item now = false ->
  value item = format_int m ->
  fst (memoryCache_IncrBy c now k n) = (wrap64 (m + n), None).
Proof.
  intros Hm Hc Hexp Hval. unfold memoryCache_IncrBy.
  rewrite Hc, Hexp, Hval. cbn [negb].
  by rewrite (proj2 (json_int64_round_trip m 0 Hm)).
Qed.

Lemma IncrBy_fresh (c : memoryCache) (now : Z) (k : string) (n : Z) :
  c !! k = None ->
  fst (memoryCache_IncrBy c now k n) = (wrap64 n, None).
Proof. intros Hc. unfold memoryCache_IncrBy. by rewrite Hc. Qed.

(** C10.  [IncrBy], and with it [Incr], [Decr] and [DecrBy], returns a nil
    error for every store, clock reading, key and delta, and always
    stores the decimal literal of the number it returns, without
    expiration; [Incr] is [IncrBy] with 1, [Decr] is [IncrBy] with -1 and
    [DecrBy] is [IncrBy] with the negated delta.  When the live entry under
    the key does not decode as an int64, the decode error is dropped, the
    current value counts as 0, and the entry is overwritten with the delta
    alone, which is also the value returned: the delta for [IncrBy], 1 for
    [Incr], -1 for [Decr] and the negated delta for [DecrBy]. *)
Theorem IncrBy_never_fails (c : memoryCache) (now : Z) (k : string) (n : Z) :
  let counter (d : Z) : memoryCache :=
    <[k := {| value := format_int d; expiresAt := 0 |}]> c in
  snd (fst (memoryCache_IncrBy c now k n)) = None /\
  snd (fst (memoryCache_Incr c now k)) = None /\
  snd (fst (memoryCache_Decr c now k)) = None /\
  snd (fst (memoryCache_DecrBy c now k n)) = None /\
  snd (memoryCache_IncrBy c now k n)
  = counter (fst (fst (memoryCache_IncrBy c now k n))) /\
  memoryCache_Incr c now k = memoryCache_IncrBy c now k 1 /\
  memoryCache_Decr c now k = memoryCache_IncrBy c now k (-1) /\
  memoryCache_DecrBy c now k n = memoryCache_IncrBy c now k (wrap64 (- n)) /\
  (forall item,
     c !! k = Some item ->
     isExpired item now = false ->
     snd (json_Unmarshal_int64 (value item) 0) <> None ->
     memoryCache_IncrBy c now k n = ((wrap64 n, None), counter (wrap64 n)) /\
     (is_int64 n ->
      memoryCache_IncrBy c now k n = ((n, None), counter n)) /\
     memoryCache_Incr c now k = ((1, None), counter 1) /\
     memoryCache_Decr c now k = ((-1, None), counter (-1)) /\
     memoryCache_DecrBy c now k n
     = ((wrap64 (- n), None), counter (wrap64 (- n))) /\
     (is_int64 n -> n <> minInt64 ->
      memoryCache_DecrBy c now k n = ((- n, None), counter (- n)))).
Proof.
  cbv zeta. do 8 (split; [done |]).
  intros item Hc Hexp Herr.
  assert (forall d,
            memoryCache_IncrBy c now k d =
            ((wrap64 d, None),
             <[k := {| value := format_int (wrap64 d);
                       expiresAt := 0 |}]> c)) as Hdelta.
  { intros d. unfold memoryCache_IncrBy. rewrite Hc, Hexp. cbn [negb].
    by rewrite (json_Unmarshal_int64_error _ _ Herr), Z.add_0_l. }
  split; [| split; [| split; [| split; [| split]]]].
  - apply Hdelta.
  - intros Hn. by rewrite Hdelta, (wrap64_int64 n Hn).
  - unfold memoryCache_Incr. by rewrite Hdelta.
  - unfold memoryCache_Decr, memoryCache_DecrBy. by rewrite Hdelta.
  - unfold memoryCache_DecrBy.
    by rewrite Hdelta, (wrap64_int64 _ (wrap64_is_int64 (- n))).
  - intros Hn Hmin. unfold memoryCache_DecrBy.
    assert (wrap64 (- n) = - n) as ->.
    { apply wrap64_int64. unfold is_int64, minInt64, maxInt64 in *. lia. }
    rewrite Hdelta. rewrite wrap64_int64; [done |].
    unfold is_int64, minInt64, maxInt64 in *. lia.
Qed.

(** C10 at a concrete input: the entry under "n" holds the JSON string
    [abc] in quotes, as [Set] stores a Go string; [IncrBy] by 5 returns 5
    with a nil error and stores the literal 5, and [Decr] returns -1 and
    stores the literal -1. *)
Lemma IncrBy_never_fails_witness :
  let c : memoryCache :=
    {[ "n" := {| value := [x22; "a"; "b"; "c"; x22]%byte; expiresAt := 0 |} ]} in
  memoryCache_IncrBy c 100 "n" 5 =
  ((5, None), <[ "n" := {| value := ["5"%byte]; expiresAt := 0 |} ]> c) /\
  memoryCache_Decr c 100 "n" =
  ((-1, None), <[ "n" := {| value := ["-"; "1"]%byte; expiresAt := 0 |} ]> c).
Proof.
  pose proof (IncrBy_never_fails
       {[ "n" := {| value := [x22; "a"; "b"; "c"; x22]%byte; expiresAt := 0 |} ]}
       100 "n" 5) as (_ & _ & _ & _ & _ & _ & _ & _ & Hbad).
  destruct (Hbad {| value := [x22; "a"; "b"; "c"; x22]%byte; expiresAt := 0 |}
              eq_refl eq_refl ltac:(discriminate))
    as (_ & HIncrBy & _ & HDecr & _).
  exact (conj (HIncrBy ltac:(unfold is_int64, minInt64, maxInt64; lia))
              HDecr).
Defined.

(** C2 fails on the code.  [IncrBy] stores a fresh item that carries no
    expiration, so for a key that exists unexpired with an expiration set,
    the expiration is dropped by any of the four counters: the entry's
    [expiresAt] becomes the zero Time, [TTL] answers -1 from then on, and
    the entry no longer expires. *)
Theorem IncrBy_drops_expiration (c : memoryCache) (k : string)
    (item : cacheItem) (n now now1 now2 : Z) :
  c !! k = Some item ->
  expiresAt item <> 0 ->
  isExpired item now = false ->
  let c' := snd (memoryCache_IncrBy c now k n) in
  expiresAt <$> c' !! k = Some 0 /\
  expiresAt <$> c' !! k <> expiresAt <$> c !! k /\
  expiresAt <$> snd (memoryCache_Incr c now k) !! k = Some 0 /\
  expiresAt <$> snd (memoryCache_Decr c now k) !! k = Some 0 /\
  expiresAt <$> snd (memoryCache_DecrBy c now k n) !! k = Some 0 /\
  memoryCache_TTL c' now1 now2 k = (-1, None) /\
  memoryCache_Exists c' now1 k = (true, None).
Proof.
  intros Hc Hne Hexp. cbv zeta.
  unfold memoryCache_Incr, memoryCache_Decr, memoryCache_DecrBy,
    memoryCache_IncrBy, memoryCache_TTL, memoryCache_Exists.
  rewrite Hc, Hexp. simpl. rewrite !lookup_insert_eq. simpl.
  repeat split. congruence.
Qed.

(** C2 at a concrete input: the counter 10 stored for 60ns at clock 100 and
    incremented at clock 101.  The value becomes 11; the expiration 160 is
    gone, the TTL goes from 59 to -1, and the entry is still there at clock
    1000. *)
Lemma IncrBy_drops_expiration_witness :
  let c := snd (memoryCache_Set NewMemoryCache 100 "n" 10 60) in
  let c' := snd (memoryCache_IncrBy c 101 "n" 1) in
  fst (memoryCache_IncrBy c 101 "n" 1) = (11, None) /\
  expiresAt <$> c !! "n" = Some 160 /\
  expiresAt <$> c' !! "n" = Some 0 /\
  memoryCache_TTL c 101 101 "n" = (59, None) /\
  memoryCache_TTL c' 101 101 "n" = (-1, None) /\
  memoryCache_Exists c 1000 "n" = (false, None) /\
  memoryCache_Exists c' 1000 "n" = (true, None).
Proof.
  cbv zeta.
  pose proof (IncrBy_drops_expiration
                (snd (memoryCache_Set NewMemoryCache 100 "n" 10 60)) "n"
                {| value := format_int 10; expiresAt := 160 |} 1 101 101 101
                eq_refl ltac:(discriminate) eq_refl)
    as (Hexp & _ & _ & _ & _ & HTTL & _).
  pose proof (IncrBy_drops_expiration
                (snd (memoryCache_Set NewMemoryCache 100 "n" 10 60)) "n"
                {| value := format_int 10; expiresAt := 160 |} 1 101 1000 1000
                eq_refl ltac:(discriminate) eq_refl)
    as (_ & _ & _ & _ & _ & _ & HExists).
  repeat split; first [exact Hexp | exact HTTL | exact HExists | reflexivity].
Defined.

(** ** The multi-level orchestrator *)

Section multi_facts.
Context {W V : Type}.

Implicit Types (levels tiers : list (Cache W V)) (w : W).

Lemma run_all_length {A} (ms : list (M W A)) w :
  length (fst (run_all ms w)) = length ms.
Proof.
  revert w. induction ms as [| m ms IH]; intros w; simpl; [done |].
  unfold bind. destruct (m w) as [a w1]. specialize (IH w1).
  destruct (run_all ms w1) as [l w2]. simpl in *. by rewrite IH.
Qed.

(** The backfill loop writes to the tiers [j .. j + fuel - 1], each once
    and in order, whatever each write returns. *)
Lemma backfill_run_all levels (j fuel : nat) key (v : V) ttl w :
  (j + fuel <= length levels)%nat ->
  backfill levels j fuel key v ttl w =
  (tt, snd (run_all (map (fun level => Set_ level key v ttl)
                         (take fuel (drop j levels))) w)).
Proof.
  revert j w. induction fuel as [| fuel IH]; intros j w Hlen; simpl.
  { done. }
  destruct (levels !! j) as [level |] eqn:Hj.
  - rewrite (drop_S _ _ _ Hj). simpl. unfold bind.
    destruct (Set_ level key v ttl w) as [err w1].
    rewrite IH by lia.
    by destruct (run_all _ w1).
  - apply lookup_ge_None in Hj. lia.
Qed.

Lemma Get_loop_hit levels (i : nat) (level : Cache W V) key
    (out out_i v : V) w w_i w1 (n : nat) :
  levels !! (n + i)%nat = Some level ->
  misses (take i (drop n levels)) key out w out_i w_i ->
  Get level key out_i w_i = ((v, None), w1) ->
  Get_loop levels n (drop n levels) key out w =
  ((v, None),
   if (0 <? n + i)%nat then
     if 0 <? fst (fst (TTL level key w1)) then
       snd (run_all (map (fun l => Set_ l key v (fst (fst (TTL level key w1))))
                         (take (n + i) levels))
                    (snd (TTL level key w1)))
     else snd (TTL level key w1)
   else w1).
Proof.
  revert n out w. induction i as [| i IH]; intros n out w Hi Hmiss Hget.
  - rewrite Nat.add_0_r in *. rewrite take_0 in Hmiss.
    inversion Hmiss; subst. rewrite (drop_S _ _ _ Hi). simpl.
    unfold bind. rewrite Hget.
    destruct (0 <? n)%nat eqn:Hn; [| done].
    destruct (TTL level key w1) as [[ttl terr] w2]. simpl.
    destruct (0 <? ttl) eqn:Httl; [| done].
    rewrite backfill_run_all by (apply lookup_lt_Some in Hi; lia).
    by rewrite drop_0.
  - destruct (drop n levels) as [| level0 rest] eqn:Hdrop.
    { apply lookup_lt_Some in Hi. apply (f_equal length) in Hdrop.
      rewrite length_drop in Hdrop. simpl in Hdrop. lia. }
    simpl in Hmiss. inversion Hmiss as [| ? ? ? ? ? out1 e w0 ? ? Hg0 Hrest];
      subst. simpl. unfold bind. rewrite Hg0.
    assert (rest = drop (S n) levels) as Hrest_eq.
    { rewrite <- Nat.add_1_r, <- drop_drop, Hdrop. done. }
    rewrite Hrest_eq in *.
    replace (n + S i)%nat with (S n + i)%nat in * by lia.
    by apply IH.
Qed.

Lemma Get_loop_miss tiers levels (i : nat) key (out out' : V) w w' :
  misses tiers key out w out' w' ->
  Get_loop levels i tiers key out w = ((out', Some (NotFoundError key)), w').
Proof.
  intros Hmiss. revert i.
  induction Hmiss as [| level tiers key out w out1 e w1 out' w' Hg _ IH];
    intros i; simpl; [done |].
  unfold bind. rewrite Hg. apply IH.
Qed.

(** The accumulator of a fan-out loop is the last error among the
    results of running every call. *)
Lemma fan_out_run_all (calls : list (M W (option error)))
    (lastErr : option error) w :
  fan_out lastErr calls w =
  (match last_error (fst (run_all calls w)) with
   | Some e => Some e
   | None => lastErr
   end,
   snd (run_all calls w)).
Proof.
  revert lastErr w. induction calls as [| call calls IH];
    intros lastErr w; simpl; [done |].
  unfold bind. destruct (call w) as [err w1]. rewrite IH.
  destruct (run_all calls w1) as [errs w2]. simpl. f_equal.
  unfold last_error. destruct err as [e |]; simpl; [| done].
  change (list_omap (option error) error id errs) with (omap id errs).
  destruct (omap id errs) as [| e' l]; [done |].
  rewrite !last_cons. by destruct (last l).
Qed.

Lemma fan_out_None (calls : list (M W (option error))) w :
  fan_out None calls w =
  (last_error (fst (run_all calls w)), snd (run_all calls w)).
Proof. rewrite fan_out_run_all. by destruct (last_error _). Qed.

Lemma last_error_None (errs : list (option error)) :
  last_error errs = None <-> Forall (fun err => err = None) errs.
Proof.
  unfold last_error. rewrite last_None.
  induction errs as [| [e |] errs IH]; simpl.
  - split; [constructor | done].
  - split; [done | intros Hall; inversion Hall; done].
  - rewrite IH. split; [by constructor | by inversion 1].
Qed.

Lemma last_error_Some (errs : list (option error)) (e : error) :
  last_error errs = Some e <->
  exists i : nat,
    errs !! i = Some (Some e) /\
    forall j : nat, (i < j)%nat -> (j < length errs)%nat ->
                    errs !! j = Some None.
Proof.
  unfold last_error. induction errs as [| err errs IH] using rev_ind.
  { simpl. split; [done | intros (i & Hi & _); done]. }
  rewrite omap_app, length_app. simpl. destruct err as [e' |]; simpl.
  - rewrite last_snoc. split.
    + intros [= ->]. exists (length errs). split.
      * by rewrite lookup_app_r, Nat.sub_diag.
      * intros j Hj Hlen. lia.
    + intros (i & Hi & Hlater).
      destruct (decide (i < length errs)%nat) as [Hlt | Hge].
      * specialize (Hlater (length errs) Hlt ltac:(lia)).
        rewrite lookup_app_r, Nat.sub_diag in Hlater by lia. done.
      * apply lookup_lt_Some in Hi as Hi'. rewrite length_app in Hi'.
        simpl in Hi'. assert (i = length errs) as -> by lia.
        rewrite lookup_app_r, Nat.sub_diag in Hi by lia.
        simpl in Hi. congruence.
  - rewrite app_nil_r, IH. split.
    + intros (i & Hi & Hlater). exists i. split.
      * by apply lookup_app_l_Some.
      * intros j Hj Hlen.
        destruct (decide (j < length errs)%nat) as [Hlt | Hge].
        -- rewrite lookup_app_l by done. by apply Hlater.
        -- assert (j = length errs) as -> by lia.
           by rewrite lookup_app_r, Nat.sub_diag.
    + intros (i & Hi & Hlater).
      destruct (decide (i < length errs)%nat) as [Hlt | Hge].
      * exists i. split.
        -- by rewrite lookup_app_l in Hi.
        -- intros j Hj Hlen. specialize (Hlater j Hj ltac:(lia)).
           by rewrite lookup_app_l in Hlater.
      * apply lookup_lt_Some in Hi as Hi'. rewrite length_app in Hi'.
        simpl in Hi'. assert (i = length errs) as -> by lia.
        rewrite lookup_app_r, Nat.sub_diag in Hi by lia. done.
Qed.

End multi_facts.

Section multi_claims.
Context {W V : Type}.

Implicit Types (levels : list (Cache W V)) (w : W).

(** C1, as the code has it.  [Get] probes the tiers in order.  Let tier
    [i] be the first to hit, with the value [v].  [Get] returns [v] and a
    nil error.  When [i = 0] nothing else is called.  When [i > 0] the
    hit tier's [TTL] is called once; its error is discarded, and the
    duration it returns decides alone: when that duration is positive, [v]
    is written with it into every tier [0 .. i-1], in order and each
    once, and whatever these writes return is dropped; when it is not
    positive (the sentinels -1 and -2, or 0, Go's zero value of a failed
    lookup) nothing is written. *)
Theorem Get_backfill levels (i : nat) (level : Cache W V) (key : string)
    (out out_i v : V) w w_i w1 :
  levels !! i = Some level ->
  misses (take i levels) key out w out_i w_i ->
  Get level key out_i w_i = ((v, None), w1) ->
  let ttl := fst (fst (TTL level key w1)) in
  let w2 := snd (TTL level key w1) in
  multiLevelCache_Get levels key out w =
  ((v, None),
   if (0 <? i)%nat then
     if 0 <? ttl then
       snd (run_all (map (fun l => Set_ l key v ttl) (take i levels)) w2)
     else w2
   else w1).
Proof.
  intros Hi Hmiss Hget. cbv zeta. unfold multiLevelCache_Get.
  pose proof (Get_loop_hit levels i level key out out_i v w w_i w1 0) as Hl.
  rewrite drop_0 in Hl. simpl in Hl. by apply Hl.
Qed.

(** C7.  Each fan-out mutation calls every configured tier, in order and
    whether or not an earlier tier failed, and returns the last error
    among the tiers' results: nil when every tier returned nil, and
    otherwise the error of the last tier that failed, so that an error of
    an earlier tier is not reported once a later tier fails too. *)
Theorem fan_out_last_error levels (key : string) (v : V) (ttl : Z)
    (items : gmap string V) (keys : list string) w :
  let every_tier (op : Cache W V -> M W (option error))
                 (r : option error * W) :=
    r = (last_error (fst (run_all (map op levels) w)),
         snd (run_all (map op levels) w)) /\
    length (fst (run_all (map op levels) w)) = length levels in
  every_tier (fun l => Set_ l key v ttl)
             (multiLevelCache_Set levels key v ttl w) /\
  every_tier (fun l => MSet l items ttl)
             (multiLevelCache_MSet levels items ttl w) /\
  every_tier (fun l => Delete l key)
             (multiLevelCache_Delete levels key w) /\
  every_tier (fun l => MDelete l keys)
             (multiLevelCache_MDelete levels keys w) /\
  every_tier (fun l => Expire l key ttl)
             (multiLevelCache_Expire levels key ttl w) /\
  (forall errs : list (option error),
     last_error errs = None <-> Forall (fun err => err = None) errs) /\
  (forall (errs : list (option error)) (e : error),
     last_error errs = Some e <->
     exists i : nat,
       errs !! i = Some (Some e) /\
       forall j : nat, (i < j)%nat -> (j < length errs)%nat ->
                       errs !! j = Some None).
Proof.
  cbv zeta.
  unfold multiLevelCache_Set, multiLevelCache_MSet, multiLevelCache_Delete,
    multiLevelCache_MDelete, multiLevelCache_Expire.
  rewrite !fan_out_None, !run_all_length, !length_map.
  repeat split; first [apply last_error_None | apply last_error_Some].
Qed.

Lemma Exists_nil_error levels key w :
  snd (fst (multiLevelCache_Exists levels key w)) = None.
Proof.
  revert w. induction levels as [| level levels IH]; intros w; simpl;
    [done |].
  unfold bind. destruct (Exists level key w) as [[b err] w1].
  destruct err; [apply IH |]. destruct b; [done | apply IH].
Qed.

Lemma MGet_loop_nil_error levels keys (result : gmap string V) w :
  snd (fst (MGet_loop levels keys result w)) = None.
Proof.
  revert keys result w.
  induction levels as [| level levels IH]; intros keys result w; simpl;
    [done |].
  destruct (length keys =? 0)%nat; [done |].
  unfold bind. destruct (MGet level keys w) as [[values err] w1].
  destruct err; [apply IH |].
  destruct (collect values keys result []). apply IH.
Qed.

Lemma Ping_hit (tiers rest : list (Cache W V)) (level : Cache W V)
    w w_i (e : error) w1 :
  all_pong tiers w w_i ->
  Ping level w_i = (Some e, w1) ->
  multiLevelCache_Ping (tiers ++ level :: rest) w = (Some e, w1).
Proof.
  intros Hpong Hfail.
  induction Hpong as [| level0 tiers w w0 w' HP _ IH]; simpl.
  - unfold bind. by rewrite Hfail.
  - unfold bind. rewrite HP. by apply IH.
Qed.

Lemma Ping_all (tiers : list (Cache W V)) w w' :
  all_pong tiers w w' -> multiLevelCache_Ping tiers w = (None, w').
Proof.
  intros Hpong. induction Hpong as [| level0 tiers w w0 w' HP _ IH]; simpl;
    [done |].
  unfold bind. by rewrite HP.
Qed.

(** C3, as the code has it.  The writes and the delegated calls surface a
    tier's error unchanged.  Each fan-out mutation ([Set], [MSet],
    [Delete], [MDelete], [Expire]) runs every tier and returns the error of
    the last tier that failed, nil when none failed.  The counters and
    [TTL] are the last tier's own call, error included; [SetNX] returns
    the last tier's error.  [Ping] returns the error of the first tier
    that fails, without pinging a tier after it, and nil when every tier
    answers nil.  The reads do not surface a tier's error: [Get] takes any
    error of a tier, a Backend error included, for a miss, and when no tier
    hits it returns the typed NotFound error for the key, whatever the
    tiers returned; [Exists] and [MGet] always return a nil error. *)
Theorem tier_errors_surfaced :
  (forall levels key (out out' : V) w w',
     misses levels key out w out' w' ->
     multiLevelCache_Get levels key out w
     = ((out', Some (NotFoundError key)), w')) /\
  (forall levels key w,
     snd (fst (multiLevelCache_Exists levels key w)) = None) /\
  (forall levels keys w,
     snd (fst (multiLevelCache_MGet levels keys w)) = None) /\
  (forall levels key (v : V) ttl w,
     multiLevelCache_Set levels key v ttl w
     = (last_error (fst (run_all (map (fun l => Set_ l key v ttl) levels) w)),
        snd (run_all (map (fun l => Set_ l key v ttl) levels) w))) /\
  (forall levels (items : gmap string V) ttl w,
     multiLevelCache_MSet levels items ttl w
     = (last_error (fst (run_all (map (fun l => MSet l items ttl) levels) w)),
        snd (run_all (map (fun l => MSet l items ttl) levels) w))) /\
  (forall levels key w,
     multiLevelCache_Delete levels key w
     = (last_error (fst (run_all (map (fun l => Delete l key) levels) w)),
        snd (run_all (map (fun l => Delete l key) levels) w))) /\
  (forall levels (keys : list string) w,
     multiLevelCache_MDelete levels keys w
     = (last_error (fst (run_all (map (fun l => MDelete l keys) levels) w)),
        snd (run_all (map (fun l => MDelete l keys) levels) w))) /\
  (forall levels key ttl w,
     multiLevelCache_Expire levels key ttl w
     = (last_error (fst (run_all (map (fun l => Expire l key ttl) levels) w)),
        snd (run_all (map (fun l => Expire l key ttl) levels) w))) /\
  (forall (errs : list (option error)) (e : error),
     last_error errs = Some e <->
     exists i : nat,
       errs !! i = Some (Some e) /\
       forall j : nat, (i < j)%nat -> (j < length errs)%nat ->
                       errs !! j = Some None) /\
  (forall errs : list (option error),
     last_error errs = None <-> Forall (fun err => err = None) errs) /\
  (forall levels (level : Cache W V) key n,
     last levels = Some level ->
     multiLevelCache_Incr levels key = Incr level key /\
     multiLevelCache_IncrBy levels key n = IncrBy level key n /\
     multiLevelCache_Decr levels key = Decr level key /\
     multiLevelCache_DecrBy levels key n = DecrBy level key n /\
     multiLevelCache_TTL levels key = TTL level key) /\
  (forall levels (level : Cache W V) key (v : V) ttl w b e w1,
     last levels = Some level ->
     SetNX level key v ttl w = ((b, Some e), w1) ->
     multiLevelCache_SetNX levels key v ttl w = ((false, Some e), w1)) /\
  (forall levels (i : nat) (level : Cache W V) w w_i (e : error) w1,
     levels !! i = Some level ->
     all_pong (take i levels) w w_i ->
     Ping level w_i = (Some e, w1) ->
     multiLevelCache_Ping levels w = (Some e, w1)) /\
  (forall levels w w',
     all_pong levels w w' -> multiLevelCache_Ping levels w = (None, w')).
Proof.
  split; [| split; [| split; [| split; [| split; [| split; [| split;
    [| split; [| split; [| split; [| split; [| split; [| split]]]]]]]]]]]].
  - intros levels key out out' w w' Hmiss. by apply Get_loop_miss.
  - apply Exists_nil_error.
  - intros levels keys w. apply MGet_loop_nil_error.
  - intros. unfold multiLevelCache_Set. by rewrite fan_out_None.
  - intros. unfold multiLevelCache_MSet. by rewrite fan_out_None.
  - intros. unfold multiLevelCache_Delete. by rewrite fan_out_None.
  - intros. unfold multiLevelCache_MDelete. by rewrite fan_out_None.
  - intros. unfold multiLevelCache_Expire. by rewrite fan_out_None.
  - apply last_error_Some.
  - apply last_error_None.
  - intros levels level key n Hlast.
    unfold multiLevelCache_Incr, multiLevelCache_IncrBy,
      multiLevelCache_Decr, multiLevelCache_DecrBy, multiLevelCache_TTL.
    by rewrite Hlast.
  - intros levels level key v ttl w b e w1 Hlast HNX.
    unfold multiLevelCache_SetNX. rewrite Hlast. unfold bind.
    by rewrite HNX.
  - intros levels i level w w_i e w1 Hi Hpong Hfail.
    rewrite <- (take_drop_middle levels i level Hi).
    by apply (Ping_hit _ _ _ _ w_i).
  - intros levels w w'. apply Ping_all.
Qed.

End multi_claims.

(** *** The orchestrator over scripted tiers *)

(** C1 at a concrete input: an empty first tier in front of a tier that
    holds 1 under every key with 60ns left.  The log shows the probe of
    tier 0, the hit on tier 1, its TTL query and the write into tier 0. *)
Lemma Get_backfill_witness :
  multiLevelCache_Get
    [scripted 0 empty_replies; scripted 1 (holding_replies 1 (60, None))]
    "x" 0 []
  = ((1, None),
     [(0%nat, CallGet "x"); (1%nat, CallGet "x"); (1%nat, CallTTL "x");
      (0%nat, CallSet "x" 1 60)]).
Proof.
  exact (Get_backfill
           [scripted 0 empty_replies; scripted 1 (holding_replies 1 (60, None))]
           1 (scripted 1 (holding_replies 1 (60, None))) "x" 0 0 1
           [] [(0%nat, CallGet "x")]
           [(0%nat, CallGet "x"); (1%nat, CallGet "x")]
           eq_refl
           (misses_cons (scripted 0 empty_replies) [] "x" 0 [] 0
              ErrNotFound [(0%nat, CallGet "x")] 0 [(0%nat, CallGet "x")]
              eq_refl (misses_nil "x" 0 [(0%nat, CallGet "x")]))
           eq_refl).
Defined.

(** C1 as worded does not hold for a tier whose TTL lookup fails and still
    returns a positive duration: the error is discarded and the backfill
    write into tier 0 takes place. *)
Lemma Get_backfill_after_failed_TTL :
  let timeout := errorString "i/o timeout" in
  let deep := scripted 1 (holding_replies 1 (5, Some timeout)) in
  snd (fst (TTL deep "x" [])) = Some timeout /\
  multiLevelCache_Get [scripted 0 empty_replies; deep] "x" 0 []
  = ((1, None),
     [(0%nat, CallGet "x"); (1%nat, CallGet "x"); (1%nat, CallTTL "x");
      (0%nat, CallSet "x" 1 5)]).
Proof. split; reflexivity. Qed.

(** With Go's zero value beside the error the backfill is skipped. *)
Lemma Get_no_backfill_after_failed_TTL_zero :
  let timeout := errorString "i/o timeout" in
  let deep := scripted 1 (holding_replies 1 (0, Some timeout)) in
  multiLevelCache_Get [scripted 0 empty_replies; deep] "x" 0 []
  = ((1, None),
     [(0%nat, CallGet "x"); (1%nat, CallGet "x"); (1%nat, CallTTL "x")]).
Proof. reflexivity. Qed.

(** Errors of the backfill writes are dropped: the first tier fails every
    call, the read from the second tier still succeeds. *)
Lemma Get_backfill_write_fails :
  let down := errorString "connection refused" in
  multiLevelCache_Get
    [scripted 0 (failing_replies down);
     scripted 1 (holding_replies 1 (60, None))] "x" 0 []
  = ((1, None),
     [(0%nat, CallGet "x"); (1%nat, CallGet "x"); (1%nat, CallTTL "x");
      (0%nat, CallSet "x" 1 60)]).
Proof. reflexivity. Qed.

(** C7 at a concrete input: of three tiers the first two fail; all three
    are called and the second tier's error is returned. *)
Lemma fan_out_last_error_witness :
  multiLevelCache_Set
    [scripted 0 (failing_replies (errorString "first"));
     scripted 1 (failing_replies (errorString "second"));
     scripted 2 empty_replies] "x" 1 60 []
  = (Some (errorString "second"),
     [(0%nat, CallSet "x" 1 60); (1%nat, CallSet "x" 1 60);
      (2%nat, CallSet "x" 1 60)]).
Proof.
  exact (proj1 (proj1 (fan_out_last_error
           [scripted 0 (failing_replies (errorString "first"));
            scripted 1 (failing_replies (errorString "second"));
            scripted 2 empty_replies] "x" 1 60 ∅ [] []))).
Defined.

(** C3 at a concrete input: in front of a tier whose driver fails, [Set]
    returns the driver's error and [Get] returns NotFound; with the failing
    tier first, [Ping] returns its error and the second tier is not
    pinged. *)
Lemma tier_errors_surfaced_witness :
  let down := errorString "dial tcp 10.0.0.1:6379: connect: connection refused" in
  let tiers := [scripted 0 empty_replies; scripted 1 (failing_replies down)] in
  fst (multiLevelCache_Get tiers "x" 0 []) = (0, Some (NotFoundError "x")) /\
  fst (multiLevelCache_Set tiers "x" 1 60 []) = Some down /\
  multiLevelCache_Ping
    [scripted 0 (failing_replies down); scripted 1 (empty_replies (V := Z))] []
  = (Some down, [(0%nat, CallPing)]).
Proof.
  cbv zeta.
  pose proof (@tier_errors_surfaced (list (nat * Call Z)) Z)
    as (HGet & _ & _ & HSet & _ & _ & _ & _ & _ & _ & _ & _ & HPing & _).
  split; [| split].
  - erewrite HGet; [reflexivity |].
    eapply misses_cons; [reflexivity |].
    eapply misses_cons; [reflexivity |].
    apply misses_nil.
  - rewrite HSet. reflexivity.
  - eapply (HPing _ 0%nat); [reflexivity | apply all_pong_nil | reflexivity].
Defined.

(** C3 as worded does not hold for [Get]: the only failure among the tiers
    is a Backend error, no tier hits, and the caller receives the typed
    NotFound error, which [IsNotFound] accepts, in its place. *)
Lemma Get_hides_backend_error :
  let down := errorString "dial tcp 10.0.0.1:6379: connect: connection refused" in
  let tiers := [scripted 0 (failing_replies down)] in
  snd (fst (Get (scripted 0 (failing_replies down)) "x" 0 [])) = Some down /\
  IsNotFound (Some down) = false /\
  snd (fst (multiLevelCache_Get tiers "x" 0 [])) = Some (NotFoundError "x") /\
  IsNotFound (snd (fst (multiLevelCache_Get tiers "x" 0 []))) = true.
Proof. repeat split. Qed.

(** Over scripted tiers the fan-out is visible in the log: whatever each
    tier answers, every tier receives the call once, in the order of the
    tier list, and the caller sees the last error. *)
Lemma fan_out_log {V : Type} (rs : list (Replies V)) (n : nat) (key : string)
    (v : V) (ttl : Z) (log : list (nat * Call V)) :
  multiLevelCache_Set (imap (fun i r => scripted (n + i) r) rs) key v ttl log
  = (last_error (map reply_write rs),
     log ++ imap (fun i _ => ((n + i)%nat, CallSet key v ttl)) rs).
Proof.
  unfold multiLevelCache_Set. rewrite fan_out_None.
  assert (forall log,
    run_all (map (fun level => Set_ level key v ttl)
                 (imap (fun i r => scripted (n + i) r) rs)) log
    = (map reply_write rs,
       log ++ imap (fun i _ => ((n + i)%nat, CallSet key v ttl)) rs)) as ->;
    [| done].
  revert n. induction rs as [| r rs IH]; intros n log'; simpl.
  { by rewrite app_nil_r. }
  unfold bind, logged. simpl.
  rewrite (imap_ext _ (fun i r => scripted (S n + i) r) rs)
    by (intros; simpl; f_equal; lia).
  rewrite IH. simpl. rewrite Nat.add_0_r, <- app_assoc. simpl.
  do 3 f_equal. apply imap_ext. intros. simpl. f_equal. lia.
Qed.

(** An orchestrator without tiers: [Get] misses, the counters return 0,
    [SetNX] returns false and [TTL] returns -2, all with a nil error except
    the miss. *)
Lemma no_levels {W V : Type} (key : string) (out v : V) (n ttl : Z) (w : W) :
  multiLevelCache_Get [] key out w = ((out, Some (NotFoundError key)), w) /\
  multiLevelCache_Incr (V := V) [] key w = ((0, None), w) /\
  multiLevelCache_IncrBy (V := V) [] key n w = ((0, None), w) /\
  multiLevelCache_SetNX [] key v ttl w = ((false, None), w) /\
  multiLevelCache_TTL (V := V) [] key w = ((-2, None), w) /\
  multiLevelCache_Set [] key v ttl w = (None, w).
Proof. repeat split. Qed.

(* ===================================================================== *)
(** * Further properties of the in-process store                          *)
(* ===================================================================== *)

Section memory_more.
Context {V : Type} `{JSON V}.

(** X1.  [Delete] always returns nil.  Afterwards the key is gone for every
    read path ([Get] returns NotFound, [Exists] false, [TTL] -2), every
    other key is as before, and deleting a key that is not there changes
    nothing, so a second [Delete] is a no-op. *)
Theorem Delete_removes (c : memoryCache) (k : string) (out : V)
    (now now2 : Z) :
  let c' := snd (memoryCache_Delete c k) in
  fst (memoryCache_Delete c k) = None /\
  memoryCache_Get c' now k out = (out, Some (NotFoundError k)) /\
  memoryCache_Exists c' now k = (false, None) /\
  memoryCache_TTL c' now now2 k = (-2, None) /\
  (forall k', k' <> k -> c' !! k' = c !! k') /\
  (c !! k = None -> c' = c) /\
  snd (memoryCache_Delete c' k) = c'.
Proof.
  cbv zeta. unfold memoryCache_Delete, memoryCache_Get, memoryCache_Exists,
    memoryCache_TTL. simpl. rewrite lookup_delete_eq.
  repeat split.
  - intros k' Hne. by apply lookup_delete_ne.
  - apply delete_id.
  - apply delete_id, lookup_delete_eq.
Qed.

(** X2.  [Set] replaces an entry as a whole.  After two [Set]s on one key
    the store is what the second [Set] alone would have left: value and
    expiration are those of the second call (a [ttl <= 0] there removes the
    expiration of the first), [Get] returns the second value, and every
    other key is as before.  A value that does not encode leaves the store
    as it was and its error is returned. *)
Theorem Set_overwrites (c : memoryCache) (k : string) (v1 v2 out : V)
    (data2 : bytes) (ttl1 ttl2 t1 t2 t : Z) :
  json_Marshal v2 = (data2, None) ->
  json_Unmarshal data2 out = (v2, None) ->
  0 <= t2 ->
  ttl2 <= 0 \/ t <= t2 + ttl2 ->
  let c1 := snd (memoryCache_Set c t1 k v1 ttl1) in
  let c2 := snd (memoryCache_Set c1 t2 k v2 ttl2) in
  c2 = snd (memoryCache_Set c t2 k v2 ttl2) /\
  c2 !! k = Some {| value := data2;
                    expiresAt := if 0 <? ttl2 then t2 + ttl2 else 0 |} /\
  memoryCache_Get c2 t k out = (v2, None) /\
  (forall k', k' <> k -> c2 !! k' = c !! k') /\
  (forall (v : V) (data : bytes) (e : error) (c0 : memoryCache) (t0 ttl : Z),
     json_Marshal v = (data, Some e) ->
     memoryCache_Set c0 t0 k v ttl = (Some e, c0)).
Proof.
  intros Hm Hu Ht2 Hlive. cbv zeta. unfold memoryCache_Set, Add.
  rewrite Hm. simpl.
  set (item2 := {| value := data2;
                   expiresAt := if 0 <? ttl2 then t2 + ttl2 else 0 |}).
  assert (isExpired item2 t = false) as Hexp.
  { apply isExpired_false. subst item2. simpl.
    destruct (Z.ltb_spec 0 ttl2); lia. }
  destruct (json_Marshal v1) as [data1 [e1 |]]; simpl.
  - repeat split.
    + apply lookup_insert_eq.
    + unfold memoryCache_Get. by rewrite lookup_insert_eq, Hexp.
    + intros k' Hne. by rewrite lookup_insert_ne.
    + intros v data e c0 t0 ttl Hv. by rewrite Hv.
  - rewrite insert_insert_eq. repeat split.
    + apply lookup_insert_eq.
    + unfold memoryCache_Get. by rewrite lookup_insert_eq, Hexp.
    + intros k' Hne. by rewrite lookup_insert_ne.
    + intros v data e c0 t0 ttl Hv. by rewrite Hv.
Qed.

(** X3.  At one clock reading the read paths agree on whether a key is
    there.  [Exists] never fails; it is true exactly when the map holds an
    unexpired entry; when it is false [Get] returns NotFound for the key
    and [TTL] returns -2; when it is true [Get] is the decode of the stored
    bytes into the destination. *)
Theorem reads_agree (c : memoryCache) (k : string) (out : V) (now now2 : Z) :
  snd (memoryCache_Exists c now k) = None /\
  (fst (memoryCache_Exists c now k) = true <->
   exists item, c !! k = Some item /\ isExpired item now = false) /\
  (fst (memoryCache_Exists c now k) = false ->
   memoryCache_Get c now k out = (out, Some (NotFoundError k)) /\
   memoryCache_TTL c now now2 k = (-2, None)) /\
  (forall item,
     c !! k = Some item ->
     fst (memoryCache_Exists c now k) = true ->
     memoryCache_Get c now k out = json_Unmarshal (value item) out).
Proof.
  unfold memoryCache_Exists, memoryCache_Get, memoryCache_TTL.
  destruct (c !! k) as [item |] eqn:Hc.
  - destruct (isExpired item now) eqn:Hexp; simpl.
    + repeat split; try done.
      * intros (item' & [= <-] & Hlive). congruence.
      * apply isExpired_true in Hexp as [Hne _]. unfold IsZero.
        by destruct (Z.eqb_spec (expiresAt item) 0).
    + repeat split; try done; eauto.
      intros item' [= <-] _. done.
  - simpl. repeat split; try done. intros (item & ? & _). done.
Qed.

(** X4.  Between a [Set] with a positive ttl and its expiration, [TTL]
    returns the ttl less the time gone since the [Set], a duration between
    0 and the ttl. *)
Theorem TTL_after_Set (c : memoryCache) (k : string) (v : V) (data : bytes)
    (ttl t0 now1 now2 : Z) :
  0 < ttl ->
  is_int64 ttl ->
  0 <= t0 ->
  json_Marshal v = (data, None) ->
  t0 <= now1 ->
  now1 <= now2 ->
  now2 <= t0 + ttl ->
  memoryCache_TTL (snd (memoryCache_Set c t0 k v ttl)) now1 now2 k
  = (ttl - (now2 - t0), None) /\
  0 <= ttl - (now2 - t0) <= ttl.
Proof.
  intros Httl [_ Hmax] Ht0 Hm H1 H2 H3. split; [| lia].
  unfold memoryCache_Set. rewrite Hm. simpl.
  unfold memoryCache_TTL. rewrite lookup_insert_eq. simpl.
  assert ((0 <? ttl) = true) as -> by lia. unfold Add, IsZero.
  destruct (Z.eqb_spec (t0 + ttl) 0); [lia |].
  assert (isExpired {| value := data; expiresAt := t0 + ttl |} now1 = false)
    as -> by (apply isExpired_false; simpl; lia).
  f_equal. rewrite Until_in_range; [lia |].
  unfold is_int64, minInt64 in *. lia.
Qed.

(** X5.  [TTL] reads the clock twice.  When the entry is still unexpired at
    the first reading and the clock has passed the expiration at the
    second, the result is the negative difference: one nanosecond past the
    expiration it is -1, the value that otherwise says "no expiration",
    and two nanoseconds past it is -2. *)
Theorem TTL_between_readings (c : memoryCache) (k : string)
    (item : cacheItem) (now1 now2 : Z) :
  c !! k = Some item ->
  expiresAt item <> 0 ->
  now1 <= expiresAt item ->
  expiresAt item < now2 ->
  fst (memoryCache_TTL c now1 now2 k) < 0 /\
  (now2 = expiresAt item + 1 -> memoryCache_TTL c now1 now2 k = (-1, None)) /\
  (now2 = expiresAt item + 2 -> memoryCache_TTL c now1 now2 k = (-2, None)).
Proof.
  intros Hc Hne H1 H2. unfold memoryCache_TTL. rewrite Hc. unfold IsZero.
  destruct (Z.eqb_spec (expiresAt item) 0); [done |].
  assert (isExpired item now1 = false) as ->
    by (apply isExpired_false; lia).
  simpl. unfold Until, Sub, minInt64, maxInt64.
  split; [lia |]. split; intros ->; f_equal; lia.
Qed.

(** X6.  A pass of the background sweep removes exactly the entries that
    are expired at the reading taken for them and leaves every other entry
    as it is.  No read at or after that reading can tell whether the pass
    ran: [Get], [Exists] and [TTL] return what they would have returned
    without it.  A second pass with the same readings removes nothing
    more. *)
Theorem cleanup_exact (c : memoryCache) (nowOf : string -> Z) (k : string) :
  (forall item,
     cleanup c nowOf !! k = Some item <->
     c !! k = Some item /\ isExpired item (nowOf k) = false) /\
  (forall (out : V) (now now2 : Z),
     nowOf k <= now ->
     memoryCache_Get (cleanup c nowOf) now k out = memoryCache_Get c now k out /\
     memoryCache_Exists (cleanup c nowOf) now k = memoryCache_Exists c now k /\
     memoryCache_TTL (cleanup c nowOf) now now2 k = memoryCache_TTL c now now2 k) /\
  cleanup (cleanup c nowOf) nowOf = cleanup c nowOf.
Proof.
  split; [| split].
  - intros item. rewrite cleanup_lookup.
    destruct (c !! k) as [item' |]; [| by split; [| intros [? _]]].
    destruct (isExpired item' (nowOf k)) eqn:Hexp.
    + split; [done |]. intros [[= ->] Hlive]. congruence.
    + split; [by intros [= ->] | by intros [? _]].
  - intros out now now2 Hle. split; [by apply Get_cleanup |].
    unfold memoryCache_Exists, memoryCache_TTL. rewrite cleanup_lookup.
    destruct (c !! k) as [item |]; [| done].
    destruct (isExpired item (nowOf k)) eqn:Hexp; [| done].
    rewrite (isExpired_mono _ _ _ Hle Hexp).
    apply isExpired_true in Hexp as [Hne _]. unfold IsZero.
    by destruct (Z.eqb_spec (expiresAt item) 0).
  - apply map_eq. intros k'. rewrite !cleanup_lookup.
    destruct (c !! k') as [item |]; [| done].
    destruct (isExpired item (nowOf k')) eqn:Hexp; [done |]. by rewrite Hexp.
Qed.

End memory_more.

(** X7.  [MDelete] always returns nil; afterwards every listed key is
    absent and every key that is not listed is as before. *)
Theorem MDelete_removes (c : memoryCache) (keys : list string) (k : string) :
  fst (memoryCache_MDelete c keys) = None /\
  (k ∈ keys -> snd (memoryCache_MDelete c keys) !! k = None) /\
  (k ∉ keys -> snd (memoryCache_MDelete c keys) !! k = c !! k).
Proof.
  unfold memoryCache_MDelete. simpl. split; [done |].
  revert c. induction keys as [| key keys IH]; intros c; simpl.
  - split; [by intros ?%elem_of_nil | done].
  - destruct (IH (delete key c)) as [IHin IHout]. split.
    + intros [-> | Hin]%elem_of_cons; [| by apply IHin].
      destruct (decide (key ∈ keys)); [by apply IHin |].
      rewrite IHout by done. apply lookup_delete_eq.
    + intros [Hne Hnotin]%not_elem_of_cons.
      rewrite IHout by done. by apply lookup_delete_ne.
Qed.

Section memory_batch_facts.
Context {V : Type} `{JSON V}.

Lemma MGet_range_lookup (zero : V) (c : memoryCache) (nowAt : nat -> Z)
    (keys : list string) (i : nat) (result : gmap string V)
    (k : string) (v : V) :
  MGet_range zero c nowAt i keys result !! k = Some v <->
  (exists (j : nat) (item : cacheItem),
     keys !! j = Some k /\ c !! k = Some item /\
     isExpired item (nowAt (i + j)%nat) = false /\
     json_Unmarshal (value item) zero = (v, None)) \/
  (result !! k = Some v /\
   forall (j : nat) (item : cacheItem) (v' : V),
     keys !! j = Some k -> c !! k = Some item ->
     isExpired item (nowAt (i + j)%nat) = false ->
     json_Unmarshal (value item) zero = (v', None) -> v' = v).
Proof.
  revert i result. induction keys as [| key keys IH]; intros i result.
  { simpl. split; [intros Hr; right; by split | ].
    intros [(j & item & Hj & _) | [Hr _]]; done. }
  simpl. rewrite IH. clear IH.
  set (result1 := match c !! key with
                  | Some item =>
                      if negb (isExpired item (nowAt i)) then
                        let '(v0, err) := json_Unmarshal (value item) zero in
                        if err is None then <[key := v0]> result else result
                      else result
                  | None => result
                  end).
  assert (forall j, (S i + j)%nat = (i + S j)%nat) as HS by (intros; lia).
  assert (key <> k -> result1 !! k = result !! k) as Hother.
  { intros Hne. subst result1. destruct (c !! key) as [item |]; [| done].
    destruct (negb (isExpired item (nowAt i))); [| done].
    destruct (json_Unmarshal (value item) zero) as [v0 [e |]]; [done |].
    by rewrite lookup_insert_ne. }
  assert (forall item v0,
            key = k -> c !! k = Some item ->
            isExpired item (nowAt i) = false ->
            json_Unmarshal (value item) zero = (v0, None) ->
            result1 !! k = Some v0) as Hhit.
  { intros item v0 -> Hc Hlive Hdec. subst result1.
    rewrite Hc, Hlive, Hdec. simpl. apply lookup_insert_eq. }
  assert ((forall item v0,
             key = k -> c !! k = Some item ->
             isExpired item (nowAt i) = false ->
             json_Unmarshal (value item) zero <> (v0, None)) ->
          result1 !! k = result !! k) as Hmiss.
  { intros Hno. destruct (decide (key = k)) as [-> | Hne]; [| by apply Hother].
    subst result1. destruct (c !! k) as [item |] eqn:Hc; [| done].
    destruct (isExpired item (nowAt i)) eqn:Hexp; [done |]. simpl.
    destruct (json_Unmarshal (value item) zero) as [v0 [e |]] eqn:Hd; [done |].
    by destruct (Hno item v0 eq_refl eq_refl Hexp Hd). }
  split.
  - intros [(j & item & Hj & Hc & Hlive & Hdec) | [Hr Hagree]].
    + left. exists (S j), item. rewrite <- HS. done.
    + destruct (decide (key = k)) as [-> | Hne].
      * destruct (c !! k) as [item |] eqn:Hc.
        -- destruct (isExpired item (nowAt i)) eqn:Hexp.
           ++ right. rewrite Hmiss in Hr by (intros; congruence).
              split; [done |]. intros [| j] item' v' Hj Hc' Hlive Hdec.
              ** rewrite Nat.add_0_r in Hlive. congruence.
              ** rewrite <- HS in Hlive. simpl in Hj. eapply Hagree; eauto.
           ++ destruct (json_Unmarshal (value item) zero) as [v0 [e |]] eqn:Hd.
              ** right. rewrite Hmiss in Hr by (intros; congruence).
                 split; [done |]. intros [| j] item' v' Hj Hc' Hlive Hdec.
                 --- congruence.
                 --- rewrite <- HS in Hlive. simpl in Hj. eapply Hagree; eauto.
              ** rewrite (Hhit item v0 eq_refl eq_refl Hexp Hd) in Hr.
                 injection Hr as ->.
                 left. exists 0%nat, item. rewrite Nat.add_0_r. done.
        -- right. rewrite Hmiss in Hr by (intros; congruence).
           split; [done |]. intros j item' v' _ Hc'. done.
      * rewrite Hother in Hr by done. right. split; [done |].
        intros [| j] item' v' Hj Hc' Hlive Hdec.
        -- simpl in Hj. congruence.
        -- rewrite <- HS in Hlive. simpl in Hj. eapply Hagree; eauto.
  - intros [(j & item & Hj & Hc & Hlive & Hdec) | [Hr Hagree]].
    + destruct j as [| j].
      * simpl in Hj. injection Hj as ->. rewrite Nat.add_0_r in Hlive.
        right. split; [by eapply Hhit |].
        intros j item' v' Hj Hc' Hlive' Hdec'. congruence.
      * left. exists j, item. rewrite HS. done.
    + right. split.
      * destruct (decide (key = k)) as [-> | Hne]; [| by rewrite Hother].
        destruct (c !! k) as [item |] eqn:Hc;
          [| by rewrite Hmiss by (intros; congruence)].
        destruct (isExpired item (nowAt i)) eqn:Hexp;
          [by rewrite Hmiss by (intros; congruence) |].
        destruct (json_Unmarshal (value item) zero) as [v0 [e |]] eqn:Hd;
          [by rewrite Hmiss by (intros; congruence) |].
        rewrite (Hhit item v0 eq_refl eq_refl Hexp Hd). f_equal.
        eapply (Hagree 0%nat item v0); eauto. by rewrite Nat.add_0_r.
      * intros j item v' Hj Hc Hlive Hdec. rewrite HS in Hlive.
        eapply (Hagree (S j)); eauto.
Qed.

(** X8.  [MGet] of the in-process store never fails, and its result holds
    a key exactly when the key was asked for, the map holds an entry for it
    that is unexpired at the reading taken for it, and the entry decodes;
    the value is the decoded one.  Keys that are absent, expired or do not
    decode are left out without an error, and no other key appears. *)
Theorem MGet_exact (zero : V) (c : memoryCache) (nowAt : nat -> Z)
    (keys : list string) (k : string) (v : V) :
  snd (memoryCache_MGet zero c nowAt keys) = None /\
  (fst (memoryCache_MGet zero c nowAt keys) !! k = Some v <->
   exists (j : nat) (item : cacheItem),
     keys !! j = Some k /\ c !! k = Some item /\
     isExpired item (nowAt j) = false /\
     json_Unmarshal (value item) zero = (v, None)).
Proof.
  split; [done |]. unfold memoryCache_MGet. simpl.
  rewrite MGet_range_lookup. simpl. split.
  - intros [Hhit | [Hempty _]]; [done | by rewrite lookup_empty in Hempty].
  - intros Hhit. by left.
Qed.

Lemma MSet_range_ok (items : list (string * V)) (c : memoryCache)
    (nowAt : nat -> Z) (i : nat) (ttl : Z) :
  Forall (fun kv => snd (json_Marshal (snd kv)) = None) items ->
  NoDup (items.*1) ->
  fst (MSet_range c nowAt i items ttl) = None /\
  (forall (j : nat) (k : string) (v : V),
     items !! j = Some (k, v) ->
     snd (MSet_range c nowAt i items ttl) !! k
     = Some {| value := fst (json_Marshal v);
               expiresAt := if 0 <? ttl then nowAt (i + j)%nat + ttl else 0 |}) /\
  (forall k : string,
     k ∉ items.*1 -> snd (MSet_range c nowAt i items ttl) !! k = c !! k).
Proof.
  intros Hok. revert c i.
  induction Hok as [| [key v0] items Hv0 _ IH]; intros c i Hnd; simpl.
  { split; [done |]. split; [by intros [] | done]. }
  simpl in Hv0. destruct (json_Marshal v0) as [data0 err0] eqn:Hm.
  simpl in Hv0. subst err0.
  apply NoDup_cons in Hnd as [Hfresh Hnd].
  destruct (IH (<[key := {| value := data0;
                            expiresAt := if 0 <? ttl then Add (nowAt i) ttl
                                         else 0 |}]> c) (S i) Hnd)
    as (Herr & Hin & Hout).
  split; [done |]. split.
  - intros [| j] k v Hj.
    + simpl in Hj. injection Hj as -> ->. rewrite Hout by done.
      rewrite lookup_insert_eq, Hm, Nat.add_0_r. done.
    + simpl in Hj. rewrite (Hin j k v Hj).
      by replace (S i + j)%nat with (i + S j)%nat by lia.
  - intros k [Hne Hnotin]%not_elem_of_cons. rewrite Hout by done.
    by apply lookup_insert_ne.
Qed.

Lemma MSet_range_fails (done_ : list (string * V)) (k : string) (v : V)
    (rest : list (string * V)) (d : bytes) (e : error)
    (c : memoryCache) (nowAt : nat -> Z) (i : nat) (ttl : Z) :
  Forall (fun kv => snd (json_Marshal (snd kv)) = None) done_ ->
  json_Marshal v = (d, Some e) ->
  MSet_range c nowAt i (done_ ++ (k, v) :: rest) ttl
  = (Some e, snd (MSet_range c nowAt i done_ ttl)).
Proof.
  intros Hok Hv. revert c i.
  induction Hok as [| [key v0] done_ Hv0 _ IH]; intros c i; simpl.
  { by rewrite Hv. }
  simpl in Hv0. destruct (json_Marshal v0) as [data0 err0]. simpl in Hv0.
  subst err0. apply IH.
Qed.

(** X9.  [MSet] of the in-process store is not all-or-nothing.  When every
    value encodes it returns nil, every item is stored with the expiration
    [Set] would give it at the reading taken for it, and no other key is
    touched.  When a value does not encode, its error is returned and the
    items visited before it stay stored: the store is what [MSet] of those
    items alone would have left. *)
Theorem MSet_stores_prefix (c : memoryCache) (nowAt : nat -> Z) (ttl : Z) :
  (forall items : list (string * V),
     Forall (fun kv => snd (json_Marshal (snd kv)) = None) items ->
     NoDup (items.*1) ->
     fst (memoryCache_MSet c nowAt items ttl) = None /\
     (forall (j : nat) (k : string) (v : V),
        items !! j = Some (k, v) ->
        snd (memoryCache_MSet c nowAt items ttl) !! k
        = Some {| value := fst (json_Marshal v);
                  expiresAt := if 0 <? ttl then nowAt j + ttl else 0 |}) /\
     (forall k : string,
        k ∉ items.*1 ->
        snd (memoryCache_MSet c nowAt items ttl) !! k = c !! k)) /\
  (forall (done_ : list (string * V)) (k : string) (v : V)
          (rest : list (string * V)) (d : bytes) (e : error),
     Forall (fun kv => snd (json_Marshal (snd kv)) = None) done_ ->
     json_Marshal v = (d, Some e) ->
     memoryCache_MSet c nowAt (done_ ++ (k, v) :: rest) ttl
     = (Some e, snd (memoryCache_MSet c nowAt done_ ttl))).
Proof.
  split.
  - intros items Hok Hnd. apply (MSet_range_ok items c nowAt 0 ttl Hok Hnd).
  - intros done_ k v rest d e Hok Hv. by apply (MSet_range_fails _ _ _ _ d).
Qed.

End memory_batch_facts.

Lemma wrap64_add_l (a b : Z) : wrap64 (wrap64 a + b) = wrap64 (a + b).
Proof.
  unfold wrap64. f_equal.
  replace ((a + 2 ^ 63) mod 2 ^ 64 - 2 ^ 63 + b + 2 ^ 63)
    with ((a + 2 ^ 63) mod 2 ^ 64 + b) by lia.
  rewrite Zplus_mod_idemp_l. f_equal. lia.
Qed.

(** One [IncrBy] on a counter that holds [wrap64 s] without expiration. *)
Lemma IncrBy_step (c : memoryCache) (k : string) (s now n : Z) :
  c !! k = Some {| value := format_int (wrap64 s); expiresAt := 0 |} ->
  memoryCache_IncrBy c now k n =
  ((wrap64 (s + n), None),
   <[k := {| value := format_int (wrap64 (s + n)); expiresAt := 0 |}]> c).
Proof.
  intros Hc. unfold memoryCache_IncrBy. rewrite Hc. cbn [isExpired]. simpl.
  rewrite (proj2 (json_int64_round_trip (wrap64 s) 0 (wrap64_is_int64 s))).
  simpl. by rewrite wrap64_add_l.
Qed.

Lemma IncrBy_run (k : string) (calls : list (Z * Z)) (call : Z * Z)
    (c : memoryCache) (s : Z) (r0 : Z * option error) :
  c !! k = None /\ s = 0 \/
  c !! k = Some {| value := format_int (wrap64 s); expiresAt := 0 |} ->
  foldl (fun rc cl => memoryCache_IncrBy (snd rc) (fst cl) k (snd cl))
        (r0, c) (call :: calls)
  = ((wrap64 (s + foldr (fun cl acc => snd cl + acc) 0 (call :: calls)), None),
     <[k := {| value :=
                 format_int
                   (wrap64 (s + foldr (fun cl acc => snd cl + acc) 0
                                      (call :: calls)));
               expiresAt := 0 |}]> c).
Proof.
  revert call c s r0. induction calls as [| call2 calls IH];
    intros [now n] c s r0 Hc.
  - cbn [foldl fst snd foldr]. rewrite Z.add_0_r.
    destruct Hc as [[Hc ->] | Hc].
    + unfold memoryCache_IncrBy. by rewrite Hc.
    + by apply IncrBy_step.
  - set (F := fun (rc : Z * option error * memoryCache) (cl : Z * Z) =>
                memoryCache_IncrBy (snd rc) (fst cl) k (snd cl)).
    change (foldl F (r0, c) ((now, n) :: call2 :: calls))
      with (foldl F (memoryCache_IncrBy c now k n) (call2 :: calls)).
    assert (memoryCache_IncrBy c now k n =
            ((wrap64 (s + n), None),
             <[k := {| value := format_int (wrap64 (s + n));
                       expiresAt := 0 |}]> c)) as ->.
    { destruct Hc as [[Hc ->] | Hc]; [| by apply IncrBy_step].
      unfold memoryCache_IncrBy. by rewrite Hc. }
    subst F. rewrite (IH call2 _ (s + n)) by (right; apply lookup_insert_eq).
    rewrite insert_insert_eq.
    change (foldr (fun cl acc => snd cl + acc) 0 ((now, n) :: call2 :: calls))
      with (n + foldr (fun cl acc => snd cl + acc) 0 (call2 :: calls)).
    by rewrite Z.add_assoc.
Qed.

(** X10.  A counter is the sum of its deltas.  After any non-empty run of
    [IncrBy] calls on a key that was absent, at whatever clock readings,
    the last call returns the sum of all deltas with the wrap-around of
    int64 and a nil error, and the entry holds the decimal literal of that
    number without expiration.  ([Incr] is the delta 1, [Decr] and [DecrBy]
    are negated deltas, so [Incr] twice returns 2 and [Incr] then [Decr]
    returns 0.) *)
Theorem IncrBy_sums (c : memoryCache) (k : string) (call : Z * Z)
    (calls : list (Z * Z)) (r0 : Z * option error) :
  c !! k = None ->
  let run :=
    foldl (fun rc cl => memoryCache_IncrBy (snd rc) (fst cl) k (snd cl))
          (r0, c) (call :: calls) in
  let total :=
    wrap64 (foldr (fun cl acc => snd cl + acc) 0 (call :: calls)) in
  fst run = (total, None) /\
  snd run = <[k := {| value := format_int total; expiresAt := 0 |}]> c /\
  (forall now, memoryCache_Incr c now k = memoryCache_IncrBy c now k 1) /\
  (forall now n,
     is_int64 n -> n <> minInt64 ->
     memoryCache_DecrBy c now k n = memoryCache_IncrBy c now k (- n)).
Proof.
  intros Hc. cbv zeta.
  rewrite (IncrBy_run k calls call c 0 r0) by (by left).
  rewrite Z.add_0_l. repeat split.
  intros now n Hn Hmin. unfold memoryCache_DecrBy.
  rewrite wrap64_int64; [done |].
  unfold is_int64, minInt64, maxInt64 in *. lia.
Qed.

(** X10 at a concrete input: [Incr] twice on a fresh key returns 2. *)
Lemma IncrBy_sums_witness :
  fst (memoryCache_Incr
         (snd (memoryCache_Incr NewMemoryCache 100 "hits")) 101 "hits")
  = (2, None).
Proof.
  exact (proj1 (IncrBy_sums NewMemoryCache "hits" (100, 1) [(101, 1)]
                  (0, None) eq_refl)).
Defined.

(** X11.  A counter stored with [Set] is picked up by the counters: after
    [Set(k, m, ttl)] with an int64 [m], an [IncrBy(k, n)] on the unexpired
    entry returns [m + n] with the wrap-around of int64, and a [Get] into
    an int64 at any later clock reading reads that number back. *)
Theorem Set_IncrBy_Get (c : memoryCache) (k : string)
    (m n ttl t0 t t' dest : Z) :
  is_int64 m ->
  0 <= t0 ->
  ttl <= 0 \/ t <= t0 + ttl ->
  let c1 := snd (memoryCache_Set c t0 k m ttl) in
  fst (memoryCache_IncrBy c1 t k n) = (wrap64 (m + n), None) /\
  memoryCache_Get (snd (memoryCache_IncrBy c1 t k n)) t' k dest
  = (wrap64 (m + n), None).
Proof.
  intros Hm Ht0 Hlive. cbv zeta. unfold memoryCache_Set. simpl.
  set (item := {| value := format_int m;
                  expiresAt := if 0 <? ttl then Add t0 ttl else 0 |}).
  assert (isExpired item t = false) as Hexp.
  { apply isExpired_false. subst item. simpl. unfold Add.
    destruct (Z.ltb_spec 0 ttl); lia. }
  unfold memoryCache_IncrBy. rewrite lookup_insert_eq, Hexp. cbn [negb].
  subst item. cbn [value].
  rewrite (proj2 (json_int64_round_trip m 0 Hm)). simpl.
  split; [done |]. unfold memoryCache_Get. rewrite lookup_insert_eq. simpl.
  apply (proj2 (json_int64_round_trip _ dest (wrap64_is_int64 (m + n)))).
Qed.

(** X11 at a concrete input: the counter 10 stored for 60ns at clock 100,
    decremented at clock 101 and read at clock 1000. *)
Lemma Set_IncrBy_Get_witness :
  let c1 := snd (memoryCache_Set NewMemoryCache 100 "counter" 10 60) in
  fst (memoryCache_IncrBy c1 101 "counter" (-1)) = (9, None) /\
  memoryCache_Get (snd (memoryCache_IncrBy c1 101 "counter" (-1)))
    1000 "counter" 0 = (9, None).
Proof.
  exact (Set_IncrBy_Get NewMemoryCache "counter" 10 (-1) 60 100 101 1000 0
           ltac:(unfold is_int64, minInt64, maxInt64; lia) ltac:(lia)
           ltac:(right; lia)).
Defined.

(** X12.  An expired entry counts as absent for the counters, whatever it
    holds: [IncrBy] returns the delta alone with a nil error, and the key
    is present again from then on, without expiration. *)
Theorem IncrBy_expired_restarts (c : memoryCache) (k : string)
    (item : cacheItem) (now now' n : Z) :
  c !! k = Some item ->
  isExpired item now = true ->
  fst (memoryCache_IncrBy c now k n) = (wrap64 n, None) /\
  memoryCache_Exists (snd (memoryCache_IncrBy c now k n)) now' k
  = (true, None) /\
  memoryCache_TTL (snd (memoryCache_IncrBy c now k n)) now' now' k
  = (-1, None).
Proof.
  intros Hc Hexp. unfold memoryCache_IncrBy. rewrite Hc, Hexp. simpl.
  unfold memoryCache_Exists, memoryCache_TTL. rewrite lookup_insert_eq.
  done.
Qed.

(** X12 at a concrete input: the counter 10 stored for 5ns at clock 100 has
    expired at clock 200; [IncrBy] by 1 returns 1, not 11. *)
Lemma IncrBy_expired_restarts_witness :
  let c := snd (memoryCache_Set NewMemoryCache 100 "n" 10 5) in
  fst (memoryCache_IncrBy c 200 "n" 1) = (1, None) /\
  memoryCache_Exists (snd (memoryCache_IncrBy c 200 "n" 1)) 300 "n"
  = (true, None).
Proof.
  pose proof (IncrBy_expired_restarts
                (snd (memoryCache_Set NewMemoryCache 100 "n" 10 5)) "n"
                {| value := format_int 10; expiresAt := 105 |} 200 300 1
                eq_refl eq_refl) as (H1 & H2 & _).
  exact (conj H1 H2).
Defined.

Section memory_Expire_more.
Context {V : Type} `{JSON V}.

(** X13.  [Expire] does not look at whether the entry has expired.  With a
    positive ttl it gives any entry the map still holds the expiration
    [t + ttl], so until then the key is present with its old bytes, also
    when it had expired before the call.  What [Expire] does to an expired
    key therefore depends on the sweep: had a pass removed the entry
    first, the call would change nothing and the key would stay absent. *)
Theorem Expire_revives (c : memoryCache) (k : string) (item : cacheItem)
    (out : V) (nowOf : string -> Z) (ttl t t' : Z) :
  c !! k = Some item ->
  0 < ttl ->
  0 <= t ->
  t' <= t + ttl ->
  isExpired item (nowOf k) = true ->
  let c' := snd (memoryCache_Expire c t k ttl) in
  let swept := snd (memoryCache_Expire (cleanup c nowOf) t k ttl) in
  c' !! k = Some {| value := value item; expiresAt := t + ttl |} /\
  memoryCache_Exists c' t' k = (true, None) /\
  memoryCache_Get c' t' k out = json_Unmarshal (value item) out /\
  swept !! k = None /\
  memoryCache_Exists swept t' k = (false, None) /\
  memoryCache_Get swept t' k out = (out, Some (NotFoundError k)).
Proof.
  intros Hc Httl Ht Ht' Hexp. cbv zeta. unfold memoryCache_Expire.
  rewrite Hc, cleanup_lookup, Hc, Hexp. simpl. unfold Add.
  set (item' := {| value := value item; expiresAt := t + ttl |}).
  assert (isExpired item' t' = false) as Hlive
    by (apply isExpired_false; subst item'; simpl; lia).
  unfold memoryCache_Exists, memoryCache_Get.
  rewrite !lookup_insert_eq, Hlive, cleanup_lookup, Hc, Hexp. done.
Qed.

End memory_Expire_more.

(** X13 at a concrete input: 42 stored for 5ns at clock 100 has expired at
    clock 200; [Expire] for 50ns at clock 200 brings it back, unless a
    sweep at clock 150 came first. *)
Lemma Expire_revives_witness :
  let c := snd (memoryCache_Set NewMemoryCache 100 "k" 42 5) in
  memoryCache_Get c 200 "k" 0 = (0, Some (NotFoundError "k")) /\
  memoryCache_Get (snd (memoryCache_Expire c 200 "k" 50)) 210 "k" 0
  = (42, None) /\
  memoryCache_Get
    (snd (memoryCache_Expire (cleanup c (fun _ => 150)) 200 "k" 50)) 210 "k" 0
  = (0, Some (NotFoundError "k")).
Proof.
  split; [reflexivity |].
  pose proof (@Expire_revives Z JSON_int64
                (snd (memoryCache_Set NewMemoryCache 100 "k" 42 5)) "k"
                {| value := format_int 42; expiresAt := 105 |} 0
                (fun _ => 150) 50 200 210
                eq_refl ltac:(lia) ltac:(lia) ltac:(lia) eq_refl)
    as (_ & _ & HGet & _ & _ & HSwept).
  exact (conj HGet HSwept).
Defined.

(* ===================================================================== *)
(** * Further properties of the multi-level orchestrator                  *)
(* ===================================================================== *)

Section multi_more.
Context {W V : Type}.

Implicit Types (levels tiers rest : list (Cache W V)) (w : W).

Lemma Exists_hit tiers rest (level : Cache W V) key w w_i w1 :
  none_exists tiers key w w_i ->
  Exists level key w_i = ((true, None), w1) ->
  multiLevelCache_Exists (tiers ++ level :: rest) key w = ((true, None), w1).
Proof.
  intros Hnone Hhit.
  induction Hnone as [| level0 tiers key w b err w0 w' Hex Hno _ IH]; simpl.
  - unfold bind. by rewrite Hhit.
  - unfold bind. rewrite Hex. destruct err as [e |]; [by apply IH |].
    destruct Hno as [-> | Hne]; [by apply IH | done].
Qed.

Lemma Exists_miss tiers key w w' :
  none_exists tiers key w w' ->
  multiLevelCache_Exists tiers key w = ((false, None), w').
Proof.
  intros Hnone.
  induction Hnone as [| level0 tiers key w b err w0 w' Hex Hno _ IH]; simpl;
    [done |].
  unfold bind. rewrite Hex. destruct err as [e |]; [by apply IH |].
  destruct Hno as [-> | Hne]; [by apply IH | done].
Qed.

(** X14.  [Exists] of the orchestrator asks the tiers in order and stops at
    the first one that answers true with a nil error: it returns true and
    no deeper tier is called.  A tier that answers false, or that fails,
    is passed over, and when every tier is passed over the answer is false;
    the error of a failing tier is never returned. *)
Theorem Exists_short_circuit levels (key : string) w :
  (forall (i : nat) (level : Cache W V) w_i w1,
     levels !! i = Some level ->
     none_exists (take i levels) key w w_i ->
     Exists level key w_i = ((true, None), w1) ->
     multiLevelCache_Exists levels key w = ((true, None), w1)) /\
  (forall w',
     none_exists levels key w w' ->
     multiLevelCache_Exists levels key w = ((false, None), w')).
Proof.
  split.
  - intros i level w_i w1 Hi Hnone Hhit.
    rewrite <- (take_drop_middle levels i level Hi).
    by apply (Exists_hit _ _ _ _ _ w_i).
  - intros w'. apply Exists_miss.
Qed.

Lemma collect_spec (values : gmap string V) (remainingKeys : list string)
    (result : gmap string V) (notFoundKeys : list string) (k : string) :
  fst (collect values remainingKeys result notFoundKeys) !! k
  = (if decide (k ∈ remainingKeys)
     then match values !! k with Some v => Some v | None => result !! k end
     else result !! k) /\
  snd (collect values remainingKeys result notFoundKeys)
  = notFoundKeys ++ filter (fun key => values !! key = None) remainingKeys.
Proof.
  revert result notFoundKeys.
  induction remainingKeys as [| key keys IH]; intros result notFoundKeys;
    simpl.
  { by rewrite app_nil_r. }
  destruct (values !! key) as [v |] eqn:Hkey.
  - destruct (IH (<[key := v]> result) notFoundKeys) as [-> ->].
    split.
    + destruct (decide (k = key)) as [-> | Hne].
      * rewrite Hkey, lookup_insert_eq.
        rewrite (decide_True _ _ (list_elem_of_here _ _)).
        by destruct (decide (key ∈ keys)).
      * rewrite lookup_insert_ne by done.
        destruct (decide (k ∈ keys)) as [Hin | Hout].
        -- by rewrite decide_True by (by right).
        -- rewrite decide_False; [done |].
           by intros [? | ?]%elem_of_cons.
    + rewrite filter_cons_False; [done |]. by rewrite Hkey.
  - destruct (IH result (notFoundKeys ++ [key])) as [-> ->].
    split.
    + destruct (decide (k = key)) as [-> | Hne].
      * rewrite Hkey. rewrite (decide_True _ _ (list_elem_of_here _ _)).
        by destruct (decide (key ∈ keys)).
      * destruct (decide (k ∈ keys)) as [Hin | Hout].
        -- by rewrite decide_True by (by right).
        -- rewrite decide_False; [done |].
           by intros [? | ?]%elem_of_cons.
    + rewrite filter_cons_True by done. by rewrite <- app_assoc.
Qed.

(** What the loop of [MGet] has resolved stays resolved, and it adds
    nothing beyond the keys it still looks for. *)
Lemma MGet_loop_keeps levels (remainingKeys : list string)
    (result : gmap string V) w (k : string) (v : V) :
  (result !! k = Some v -> k ∉ remainingKeys ->
   fst (fst (MGet_loop levels remainingKeys result w)) !! k = Some v) /\
  (fst (fst (MGet_loop levels remainingKeys result w)) !! k = Some v ->
   result !! k = Some v \/ k ∈ remainingKeys).
Proof.
  revert remainingKeys result w.
  induction levels as [| level levels IH]; intros keys result w; simpl.
  { split; [done | by left]. }
  destruct (length keys =? 0)%nat; [split; [done | by left] |].
  unfold bind. destruct (MGet level keys w) as [[values err] w1].
  destruct err as [e |]; [apply IH |].
  destruct (collect values keys result []) as [result' notFound] eqn:Hcol.
  pose proof (collect_spec values keys result [] k) as [Hres Hnf].
  rewrite Hcol in Hres, Hnf. simpl in Hres, Hnf.
  destruct (IH notFound result' w1) as [IHkeep IHdom]. split.
  - intros Hr Hout. apply IHkeep.
    + rewrite Hres. by rewrite decide_False.
    + rewrite Hnf. by intros [_ ?]%list_elem_of_filter.
  - intros Hfinal. destruct (IHdom Hfinal) as [Hr | Hin].
    + rewrite Hres in Hr. destruct (decide (k ∈ keys)); [by right | by left].
    + rewrite Hnf in Hin. apply list_elem_of_filter in Hin as [_ Hin].
      by right.
Qed.

Lemma MGet_loop_outside levels (remainingKeys : list string)
    (result : gmap string V) w (k : string) :
  k ∉ remainingKeys ->
  fst (fst (MGet_loop levels remainingKeys result w)) !! k = result !! k.
Proof.
  intros Hout.
  destruct (result !! k) as [v |] eqn:Hr.
  - by apply MGet_loop_keeps.
  - destruct (fst (fst (MGet_loop levels remainingKeys result w)) !! k)
      as [v |] eqn:Hfinal; [| done].
    destruct (proj2 (MGet_loop_keeps levels remainingKeys result w k v)
                Hfinal) as [Hin | Hin]; [congruence | done].
Qed.

(** A tier that is called and fails is passed over. *)
Lemma MGet_loop_fail (level : Cache W V) rest (keys : list string)
    (result values : gmap string V) (e : error) w w1 :
  keys <> [] ->
  MGet level keys w = ((values, Some e), w1) ->
  MGet_loop (level :: rest) keys result w = MGet_loop rest keys result w1.
Proof.
  intros Hkeys HMGet. simpl.
  destruct keys as [| key0 keys0]; [done |]. cbn [length Nat.eqb].
  unfold bind. by rewrite HMGet.
Qed.

(** A tier that is called and answers: its values are merged and the keys
    it does not hold go on. *)
Lemma MGet_loop_answer (level : Cache W V) rest (keys : list string)
    (result values : gmap string V) w w1 :
  keys <> [] ->
  MGet level keys w = ((values, None), w1) ->
  exists result',
    MGet_loop (level :: rest) keys result w
    = MGet_loop rest (filter (fun key => values !! key = None) keys)
        result' w1 /\
    forall k,
      result' !! k
      = if decide (k ∈ keys)
        then match values !! k with Some v => Some v | None => result !! k end
        else result !! k.
Proof.
  intros Hkeys HMGet.
  destruct (collect values keys result []) as [result' notFound] eqn:Hcol.
  exists result'. split.
  - simpl. destruct keys as [| key0 keys0]; [done |]. cbn [length Nat.eqb].
    unfold bind. rewrite HMGet, Hcol.
    pose proof (collect_spec values (key0 :: keys0) result [] key0)
      as [_ Hnf].
    rewrite Hcol in Hnf. simpl in Hnf. by rewrite Hnf.
  - intros k. pose proof (collect_spec values keys result [] k) as [Hres _].
    by rewrite Hcol in Hres.
Qed.

Lemma MGet_loop_no_key levels (result : gmap string V) w :
  MGet_loop levels [] result w = ((result, None), w).
Proof. by destruct levels. Qed.

(** On the keys it looks for, and in the calls it makes, the loop of [MGet]
    does not depend on what is resolved already. *)
Lemma MGet_loop_frame levels (keys : list string)
    (result1 result2 : gmap string V) w :
  (forall k, k ∈ keys -> result1 !! k = None) ->
  (forall k, k ∈ keys -> result2 !! k = None) ->
  snd (MGet_loop levels keys result1 w)
  = snd (MGet_loop levels keys result2 w) /\
  forall k, k ∈ keys ->
    fst (fst (MGet_loop levels keys result1 w)) !! k
    = fst (fst (MGet_loop levels keys result2 w)) !! k.
Proof.
  revert keys result1 result2 w.
  induction levels as [| level levels IH];
    intros keys result1 result2 w H1 H2.
  { simpl. split; [done |]. intros k Hin. by rewrite H1, H2. }
  destruct (decide (keys = [])) as [-> | Hkeys].
  { rewrite !MGet_loop_no_key. split; [done |]. by intros k ?%elem_of_nil. }
  destruct (MGet level keys w) as [[values [e |]] w1] eqn:HMGet.
  { rewrite !(MGet_loop_fail level levels keys _ values e w w1) by done.
    by apply IH. }
  destruct (MGet_loop_answer level levels keys result1 values w w1
              Hkeys HMGet) as (r1 & -> & Hr1).
  destruct (MGet_loop_answer level levels keys result2 values w w1
              Hkeys HMGet) as (r2 & -> & Hr2).
  set (notFound := filter (fun key => values !! key = None) keys).
  assert (forall k, k ∈ notFound -> r1 !! k = None) as Hn1.
  { intros k [Hnone Hin]%list_elem_of_filter.
    rewrite Hr1, decide_True, Hnone by done. by apply H1. }
  assert (forall k, k ∈ notFound -> r2 !! k = None) as Hn2.
  { intros k [Hnone Hin]%list_elem_of_filter.
    rewrite Hr2, decide_True, Hnone by done. by apply H2. }
  destruct (IH notFound r1 r2 w1 Hn1 Hn2) as [Hw Hlook].
  split; [done |]. intros k Hin.
  destruct (values !! k) as [v |] eqn:Hv.
  - assert (k ∉ notFound) as Hout.
    { intros [Hnone _]%list_elem_of_filter. congruence. }
    rewrite !MGet_loop_outside by done.
    by rewrite Hr1, Hr2, !decide_True, Hv by done.
  - apply Hlook. by apply list_elem_of_filter.
Qed.

Lemma asked_subset tiers (keys keys' : list string) w w' (k : string) :
  asked tiers keys w keys' w' -> k ∈ keys' -> k ∈ keys.
Proof.
  intros Hasked.
  induction Hasked as [| | ? ? ? ? ? ? ? ? ? _ _ _ IH
                       | ? ? ? ? ? ? ? ? _ _ _ IH]; [done | done | done |].
  intros Hin. by apply IH, list_elem_of_filter in Hin as [_ ?].
Qed.

(** The loop of [MGet] over [tiers ++ rest] is the loop over [tiers]
    followed by the loop over [rest] on the keys that [tiers] leave. *)
Lemma MGet_loop_asked tiers rest (keys keys_i : list string) w w_i
    (result : gmap string V) :
  asked tiers keys w keys_i w_i ->
  exists result_i,
    MGet_loop tiers keys result w = ((result_i, None), w_i) /\
    MGet_loop (tiers ++ rest) keys result w
    = MGet_loop rest keys_i result_i w_i /\
    forall k, k ∈ keys_i -> result_i !! k = result !! k.
Proof.
  intros Hasked. revert result.
  induction Hasked as [keys w | level tiers w
                       | level tiers keys w values e w1 keys' w' Hkeys HMGet
                           Hasked IH
                       | level tiers keys w values w1 keys' w' Hkeys HMGet
                           Hasked IH]; intros result.
  - by exists result.
  - exists result. by rewrite !MGet_loop_no_key.
  - destruct (IH result) as (result_i & Hpre & Hall & Hlook).
    exists result_i. cbn [app].
    by rewrite !(MGet_loop_fail level _ keys _ values e w w1) by done.
  - destruct (MGet_loop_answer level tiers keys result values w w1
                Hkeys HMGet) as (r' & Hpre' & Hr').
    destruct (MGet_loop_answer level (tiers ++ rest) keys result values w w1
                Hkeys HMGet) as (r'' & Hall' & Hr'').
    assert (r'' = r') as ->.
    { apply map_eq. intros k. by rewrite Hr', Hr''. }
    destruct (IH r') as (result_i & Hpre & Hall & Hlook).
    exists result_i. cbn [app]. rewrite Hpre', Hall'.
    split; [done |]. split; [done |].
    intros k Hin. rewrite (Hlook k Hin).
    pose proof (asked_subset _ _ _ _ _ k Hasked Hin)
      as [Hnone Hk]%list_elem_of_filter.
    by rewrite Hr', decide_True, Hnone by done.
Qed.

(** The result of [MGet] of the orchestrator, read at the tier [i]: a key
    still asked there gets what the tiers from [i] on give for the keys
    left, a key no longer asked keeps what the tiers before [i] gave. *)
Lemma MGet_resume levels (i : nat) (keys keys_i : list string) w w_i :
  asked (take i levels) keys w keys_i w_i ->
  snd (multiLevelCache_MGet levels keys w)
  = snd (multiLevelCache_MGet (drop i levels) keys_i w_i) /\
  forall k,
    fst (fst (multiLevelCache_MGet levels keys w)) !! k
    = if decide (k ∈ keys_i)
      then fst (fst (multiLevelCache_MGet (drop i levels) keys_i w_i)) !! k
      else fst (fst (multiLevelCache_MGet (take i levels) keys w)) !! k.
Proof.
  intros Hasked. unfold multiLevelCache_MGet.
  destruct (MGet_loop_asked (take i levels) (drop i levels) keys keys_i
              w w_i ∅ Hasked) as (result_i & Hpre & Hall & Hlook).
  rewrite take_drop in Hall. rewrite Hall, Hpre. cbn [fst snd].
  assert (forall k, k ∈ keys_i -> result_i !! k = None) as Hnone.
  { intros k Hin. by rewrite (Hlook k Hin), lookup_empty. }
  destruct (MGet_loop_frame (drop i levels) keys_i result_i ∅ w_i Hnone)
    as [Hw Hkeys]; [by intros; apply lookup_empty |].
  split; [done |]. intros k.
  destruct (decide (k ∈ keys_i)) as [Hin | Hout]; [by apply Hkeys |].
  by apply MGet_loop_outside.
Qed.

(** X15.  [MGet] of the orchestrator returns only keys that were asked for;
    asked for no key it calls no tier.  At every depth [i], with [keys_i]
    the keys that the tiers before [i] leave: a value that the tier [i]
    gives for a key of [keys_i] is the one returned, whatever deeper tiers
    hold; a tier whose [MGet] fails is passed over and the same keys go to
    the next tier; the keys that an answering tier does not hold go to the
    next tier; once a tier has answered every key, no deeper tier is
    called; a key that is no longer asked at [i] keeps the value of the
    tiers before [i]; and a key that every tier leaves is not in the
    result. *)
Theorem MGet_shallow_wins levels (keys : list string) w :
  let final := multiLevelCache_MGet levels keys w in
  (forall k v, fst (fst final) !! k = Some v -> k ∈ keys) /\
  (forall levels0 w0, multiLevelCache_MGet levels0 [] w0 = ((∅, None), w0)) /\
  (forall (i : nat) (level : Cache W V) keys_i w_i values w1 k v,
     levels !! i = Some level ->
     asked (take i levels) keys w keys_i w_i ->
     MGet level keys_i w_i = ((values, None), w1) ->
     k ∈ keys_i -> values !! k = Some v ->
     fst (fst final) !! k = Some v) /\
  (forall (i : nat) (level : Cache W V) keys_i w_i values e w1,
     levels !! i = Some level ->
     asked (take i levels) keys w keys_i w_i ->
     keys_i <> [] ->
     MGet level keys_i w_i = ((values, Some e), w1) ->
     snd final = snd (multiLevelCache_MGet (drop (S i) levels) keys_i w1) /\
     forall k, k ∈ keys_i ->
       fst (fst final) !! k
       = fst (fst (multiLevelCache_MGet (drop (S i) levels) keys_i w1)) !! k) /\
  (forall (i : nat) (level : Cache W V) keys_i w_i values w1,
     levels !! i = Some level ->
     asked (take i levels) keys w keys_i w_i ->
     keys_i <> [] ->
     MGet level keys_i w_i = ((values, None), w1) ->
     let keys' := filter (fun key => values !! key = None) keys_i in
     snd final = snd (multiLevelCache_MGet (drop (S i) levels) keys' w1) /\
     (forall k, k ∈ keys' ->
        fst (fst final) !! k
        = fst (fst (multiLevelCache_MGet (drop (S i) levels) keys' w1)) !! k) /\
     ((forall k, k ∈ keys_i -> is_Some (values !! k)) -> snd final = w1)) /\
  (forall (i : nat) keys_i w_i k,
     asked (take i levels) keys w keys_i w_i ->
     k ∉ keys_i ->
     fst (fst final) !! k
     = fst (fst (multiLevelCache_MGet (take i levels) keys w)) !! k) /\
  (forall keys' w',
     asked levels keys w keys' w' ->
     snd final = w' /\
     forall k, k ∈ keys' -> fst (fst final) !! k = None) /\
  (forall (level : Cache W V) rest values e w1,
     keys <> [] ->
     MGet level keys w = ((values, Some e), w1) ->
     multiLevelCache_MGet (level :: rest) keys w
     = multiLevelCache_MGet rest keys w1).
Proof.
  intros final. subst final.
  split; [| split; [| split; [| split; [| split; [| split; [| split]]]]]].
  - intros k v Hfinal.
    destruct (proj2 (MGet_loop_keeps levels keys ∅ w k v) Hfinal)
      as [Hempty | Hin]; [by rewrite lookup_empty in Hempty | done].
  - intros levels0 w0. apply MGet_loop_no_key.
  - intros i level keys_i w_i values w1 k v Hi Hasked HMGet Hin Hv.
    destruct (MGet_resume levels i keys keys_i w w_i Hasked) as [_ Hlook].
    rewrite Hlook, decide_True by done.
    rewrite (drop_S levels level i Hi). unfold multiLevelCache_MGet.
    assert (keys_i <> []) as Hkeys by (by intros ->; apply elem_of_nil in Hin).
    destruct (MGet_loop_answer level (drop (S i) levels) keys_i ∅ values
                w_i w1 Hkeys HMGet) as (r' & -> & Hr').
    apply MGet_loop_keeps.
    + by rewrite Hr', decide_True, Hv.
    + intros [Hnone _]%list_elem_of_filter. congruence.
  - intros i level keys_i w_i values e w1 Hi Hasked Hkeys HMGet.
    destruct (MGet_resume levels i keys keys_i w w_i Hasked) as [Hw Hlook].
    rewrite (drop_S levels level i Hi) in Hw, Hlook.
    unfold multiLevelCache_MGet in Hw, Hlook.
    rewrite (MGet_loop_fail level _ keys_i _ values e w_i w1) in Hw, Hlook
      by done.
    split; [done |]. intros k Hin. by rewrite Hlook, decide_True.
  - intros i level keys_i w_i values w1 Hi Hasked Hkeys HMGet keys'.
    destruct (MGet_resume levels i keys keys_i w w_i Hasked) as [Hw Hlook].
    rewrite (drop_S levels level i Hi) in Hw, Hlook.
    unfold multiLevelCache_MGet in Hw, Hlook.
    destruct (MGet_loop_answer level (drop (S i) levels) keys_i ∅ values
                w_i w1 Hkeys HMGet) as (r' & Heq & Hr').
    rewrite Heq in Hw, Hlook. fold keys' in Hw, Hlook.
    assert (forall k, k ∈ keys' -> r' !! k = None) as Hnone.
    { intros k [Hnone Hin]%list_elem_of_filter.
      by rewrite Hr', decide_True, Hnone. }
    destruct (MGet_loop_frame (drop (S i) levels) keys' r' ∅ w1 Hnone)
      as [Hw' Hlook']; [by intros; apply lookup_empty |].
    assert (snd (multiLevelCache_MGet levels keys w)
            = snd (multiLevelCache_MGet (drop (S i) levels) keys' w1))
      as Hworld by (unfold multiLevelCache_MGet; congruence).
    split; [done |]. split.
    + intros k Hin. rewrite Hlook, decide_True.
      * by apply Hlook'.
      * by apply list_elem_of_filter in Hin as [_ ?].
    + intros Hevery. rewrite Hworld.
      assert (keys' = []) as ->.
      { destruct keys' as [| k l] eqn:Hf; [done |].
        assert (k ∈ filter (fun key => values !! key = None) keys_i)
          as [Hn Hin]%list_elem_of_filter by (fold keys'; rewrite Hf; left).
        destruct (Hevery k Hin) as [v Hv]. congruence. }
      unfold multiLevelCache_MGet. by rewrite MGet_loop_no_key.
  - intros i keys_i w_i k Hasked Hout.
    destruct (MGet_resume levels i keys keys_i w w_i Hasked) as [_ Hlook].
    by rewrite Hlook, decide_False.
  - intros keys' w' Hasked. unfold multiLevelCache_MGet.
    destruct (MGet_loop_asked levels [] keys keys' w w' ∅ Hasked)
      as (result_i & Hpre & _ & Hlook).
    rewrite Hpre. split; [done |].
    intros k Hin. cbn [fst]. by rewrite (Hlook k Hin), lookup_empty.
  - intros level rest values e w1 Hkeys HMGet.
    by apply (MGet_loop_fail level rest keys ∅ values e).
Qed.

(** X16.  [SetNX] of the orchestrator is decided by the last tier alone.
    When that tier fails, the result is false with its error, also if the
    tier reported a creation.  When it answers false, no other tier is
    called.  When it answers true, the value is written with the same ttl
    into every earlier tier, in order and each once, and whatever these
    writes return is dropped. *)
Theorem SetNX_replicates levels (level : Cache W V) (key : string) (v : V)
    (ttl : Z) w (b : bool) (err : option error) w1 :
  last levels = Some level ->
  SetNX level key v ttl w = ((b, err), w1) ->
  multiLevelCache_SetNX levels key v ttl w =
  match err with
  | Some e => ((false, Some e), w1)
  | None =>
      ((b, None),
       if b then
         snd (run_all (map (fun l => Set_ l key v ttl)
                           (take (length levels - 1) levels)) w1)
       else w1)
  end.
Proof.
  intros Hlast HNX. unfold multiLevelCache_SetNX. rewrite Hlast.
  unfold bind. rewrite HNX. destruct err as [e |]; [done |].
  destruct b; [| done].
  rewrite backfill_run_all by lia. by rewrite drop_0.
Qed.

(** X17.  [Ping] of the orchestrator fails fast: it pings the tiers in
    order, returns the error of the first tier that fails and pings no
    tier after it; it returns nil when every tier answered nil. *)
Theorem Ping_fails_fast levels w :
  (forall (i : nat) (level : Cache W V) w_i (e : error) w1,
     levels !! i = Some level ->
     all_pong (take i levels) w w_i ->
     Ping level w_i = (Some e, w1) ->
     multiLevelCache_Ping levels w = (Some e, w1)) /\
  (forall w', all_pong levels w w' -> multiLevelCache_Ping levels w = (None, w')).
Proof.
  split.
  - intros i level w_i e w1 Hi Hpong Hfail.
    rewrite <- (take_drop_middle levels i level Hi).
    by apply (Ping_hit _ _ _ _ w_i).
  - intros w'. apply Ping_all.
Qed.

(** X18.  [Close] of the orchestrator closes every tier, in order and
    whether or not an earlier tier failed to close, and returns the last
    error among the tiers' results. *)
Theorem Close_every_tier levels w :
  multiLevelCache_Close levels w
  = (last_error (fst (run_all (map Close levels) w)),
     snd (run_all (map Close levels) w)) /\
  length (fst (run_all (map Close levels) w)) = length levels.
Proof.
  unfold multiLevelCache_Close.
  by rewrite fan_out_None, run_all_length, length_map.
Qed.

End multi_more.

Section nesting.
Context {W V : Type}.

Implicit Types (levels : list (Cache W V)) (w : W).

Lemma fan_out_app (calls1 calls2 : list (M W (option error)))
    (lastErr : option error) w :
  fan_out lastErr (calls1 ++ calls2) w =
  fan_out (fst (fan_out lastErr calls1 w)) calls2
          (snd (fan_out lastErr calls1 w)).
Proof.
  revert lastErr w. induction calls1 as [| call calls1 IH];
    intros lastErr w; simpl; [done |].
  unfold bind. destruct (call w) as [err w1]. apply IH.
Qed.

Lemma fan_out_acc (calls : list (M W (option error)))
    (lastErr : option error) w :
  fan_out lastErr calls w =
  (match fst (fan_out None calls w) with
   | Some e => Some e
   | None => lastErr
   end,
   snd (fan_out None calls w)).
Proof.
  rewrite (fan_out_run_all calls lastErr), (fan_out_run_all calls None).
  simpl. by destruct (last_error _).
Qed.

(** A fan-out over orchestrators is the fan-out over their tiers, laid end
    to end. *)
Lemma fan_out_nested (op : Cache W V -> M W (option error))
    (lss : list (list (Cache W V))) (lastErr : option error) w :
  fan_out lastErr (map (fun ls => fan_out None (map op ls)) lss) w =
  fan_out lastErr (map op (concat lss)) w.
Proof.
  revert lastErr w. induction lss as [| ls lss IH]; intros lastErr w; simpl;
    [done |].
  rewrite map_app, fan_out_app. unfold bind.
  rewrite (fan_out_acc (map op ls) lastErr).
  destruct (fan_out None (map op ls) w) as [err w1]. simpl.
  rewrite IH. by destruct err.
Qed.

Lemma Exists_app levels1 levels2 key w :
  multiLevelCache_Exists (levels1 ++ levels2) key w =
  (if fst (fst (multiLevelCache_Exists levels1 key w))
   then multiLevelCache_Exists levels1 key w
   else multiLevelCache_Exists levels2 key
          (snd (multiLevelCache_Exists levels1 key w))).
Proof.
  revert w. induction levels1 as [| level levels1 IH]; intros w; simpl;
    [done |].
  unfold bind. destruct (Exists level key w) as [[b err] w1].
  destruct err; [apply IH |]. destruct b; [done | apply IH].
Qed.

Lemma Ping_app levels1 levels2 w :
  multiLevelCache_Ping (levels1 ++ levels2) w =
  (if fst (multiLevelCache_Ping levels1 w) is Some _
   then multiLevelCache_Ping levels1 w
   else multiLevelCache_Ping levels2 (snd (multiLevelCache_Ping levels1 w))).
Proof.
  revert w. induction levels1 as [| level levels1 IH]; intros w; simpl;
    [done |].
  unfold bind. destruct (Ping level w) as [err w1].
  destruct err; [done | apply IH].
Qed.

(** X19.  Orchestrators nest without changing the writes and the checks:
    an orchestrator whose tiers are orchestrators calls the same tiers in
    the same order, and returns the same result, as one orchestrator over
    all their tiers laid end to end.  This holds for [Set], [MSet],
    [Delete], [MDelete], [Expire] and [Close] (last error), and for
    [Exists] and [Ping] (first answer). *)
Theorem nested_flatten (lss : list (list (Cache W V))) (key : string)
    (v : V) (ttl : Z) (items : gmap string V) (keys : list string) w :
  let nested := map NewMultiLevelCache lss in
  let flat := concat lss in
  multiLevelCache_Set nested key v ttl w = multiLevelCache_Set flat key v ttl w /\
  multiLevelCache_MSet nested items ttl w = multiLevelCache_MSet flat items ttl w /\
  multiLevelCache_Delete nested key w = multiLevelCache_Delete flat key w /\
  multiLevelCache_MDelete nested keys w = multiLevelCache_MDelete flat keys w /\
  multiLevelCache_Expire nested key ttl w = multiLevelCache_Expire flat key ttl w /\
  multiLevelCache_Close nested w = multiLevelCache_Close flat w /\
  multiLevelCache_Exists nested key w = multiLevelCache_Exists flat key w /\
  multiLevelCache_Ping nested w = multiLevelCache_Ping flat w.
Proof.
  cbv zeta.
  unfold multiLevelCache_Set, multiLevelCache_MSet, multiLevelCache_Delete,
    multiLevelCache_MDelete, multiLevelCache_Expire, multiLevelCache_Close.
  rewrite !map_map. simpl.
  unfold multiLevelCache_Set, multiLevelCache_MSet, multiLevelCache_Delete,
    multiLevelCache_MDelete, multiLevelCache_Expire, multiLevelCache_Close.
  rewrite <- !fan_out_nested.
  repeat split.
  - revert w. induction lss as [| ls lss IH]; intros w; simpl; [done |].
    rewrite Exists_app. unfold bind.
    pose proof (Exists_nil_error ls key w) as Herr.
    destruct (multiLevelCache_Exists ls key w) as [[b err] w1]. simpl in *.
    subst err. destruct b; [done | apply IH].
  - revert w. induction lss as [| ls lss IH]; intros w; simpl; [done |].
    rewrite Ping_app. unfold bind.
    destruct (multiLevelCache_Ping ls w) as [err w1]. simpl.
    destruct err; [done | apply IH].
Qed.

End nesting.

(* ===================================================================== *)
(** * The orchestrator over in-process stores                             *)
(* ===================================================================== *)

Lemma Get_absent {V : Type} `{JSON V} (c : memoryCache) (now : Z)
    (k : string) (out : V) :
  fst (memoryCache_Exists c now k) = false ->
  memoryCache_Get c now k out = (out, Some (NotFoundError k)).
Proof.
  unfold memoryCache_Exists, memoryCache_Get.
  destruct (c !! k) as [item |]; [| done].
  by destruct (isExpired item now).
Qed.

Lemma TTL_live (c : memoryCache) (k : string) (item : cacheItem)
    (now1 now2 : Z) :
  c !! k = Some item ->
  expiresAt item <> 0 ->
  now1 <= expiresAt item ->
  is_int64 (expiresAt item - now2) ->
  memoryCache_TTL c now1 now2 k = (expiresAt item - now2, None).
Proof.
  intros Hc Hne Hlive Hrange. unfold memoryCache_TTL. rewrite Hc.
  unfold IsZero. destruct (Z.eqb_spec (expiresAt item) 0); [done |].
  assert (isExpired item now1 = false) as -> by (apply isExpired_false; lia).
  by rewrite Until_in_range.
Qed.

Lemma Get_live {V : Type} `{JSON V} (c : memoryCache) (k : string)
    (item : cacheItem) (now : Z) (out : V) :
  c !! k = Some item ->
  expiresAt item = 0 \/ now <= expiresAt item ->
  memoryCache_Get c now k out = json_Unmarshal (value item) out.
Proof.
  intros Hc Hlive. unfold memoryCache_Get. rewrite Hc.
  by rewrite (proj2 (isExpired_false item now) Hlive).
Qed.

(** Evaluate the calls of in-process tiers on a world given by its
    stores, clock and number of readings. *)
Ltac tier_step :=
  cbn [Get Set_ TTL Incr IncrBy Exists Delete memoryTier];
  unfold store, reading, tick, put;
  cbn [stores clock reads lookup list_lookup default from_option id
       insert list_insert];
  rewrite ?Nat.add_0_r, <- ?Nat.add_assoc; cbn [Nat.add].

Section memory_tiers.
Context {V : Type} `{JSON V}.
Context (zero : V) (rangeOrder : gmap string V -> list (string * V)).

Local Abbreviation L1 := (memoryTier zero rangeOrder 0).
Local Abbreviation L2 := (memoryTier zero rangeOrder 1).

(** X20.  Read-through over two in-process stores.  When the first store
    has no live entry for the key and the second holds one with an
    expiration [E] that is still ahead, [Get] returns the second store's
    value and writes a copy into the first store; the second store is not
    changed.  The copy's ttl is the time the entry had left when the
    second store was asked for it, so the copy does not live longer than
    that; its expiration is counted from the later moment of the write, so
    it is [E] or later, later by the time between the two. *)
Theorem read_through_promotes (c0 c1 : memoryCache) (clk : nat -> Z)
    (r : nat) (k : string) (item : cacheItem) (out v : V) (data : bytes) :
  (forall i j : nat, (i <= j)%nat -> clk i <= clk j) ->
  fst (memoryCache_Exists c0 (clk r) k) = false ->
  c1 !! k = Some item ->
  expiresAt item <> 0 ->
  clk (r + 3)%nat < expiresAt item ->
  is_int64 (expiresAt item - clk (r + 3)%nat) ->
  json_Unmarshal (value item) out = (v, None) ->
  json_Marshal v = (data, None) ->
  let ttl := expiresAt item - clk (r + 3)%nat in
  multiLevelCache_Get [L1; L2] k out
    {| stores := [c0; c1]; clock := clk; reads := r |}
  = ((v, None),
     {| stores := [<[k := {| value := data;
                             expiresAt := clk (r + 4)%nat + ttl |}]> c0; c1];
        clock := clk;
        reads := (r + 5)%nat |}) /\
  0 < ttl <= expiresAt item - clk (r + 1)%nat /\
  expiresAt item <= clk (r + 4)%nat + ttl.
Proof.
  intros Hmono Hmiss Hc1 Hne Hlive Hrange Hdec Henc. cbv zeta.
  pose proof (Hmono (r + 1)%nat (r + 3)%nat ltac:(lia)) as H13.
  pose proof (Hmono (r + 2)%nat (r + 3)%nat ltac:(lia)) as H23.
  pose proof (Hmono (r + 3)%nat (r + 4)%nat ltac:(lia)) as H34.
  split; [| lia].
  unfold multiLevelCache_Get.
  pose proof (Get_loop_hit [L1; L2] 1 L2 k out out v
             {| stores := [c0; c1]; clock := clk; reads := r |}
             {| stores := [c0; c1]; clock := clk; reads := (r + 1)%nat |}
             {| stores := [c0; c1]; clock := clk; reads := (r + 2)%nat |}
             0%nat) as Hloop.
  cbn [drop take Nat.add] in Hloop. rewrite Hloop; clear Hloop.
  - tier_step. rewrite (TTL_live c1 k item) by (done || lia).
    cbn [fst snd]. assert ((0 <? expiresAt item - clk (r + 3)%nat) = true)
      as -> by lia.
    cbn [Nat.ltb Nat.leb map run_all]. unfold bind, ret. tier_step.
    unfold memoryCache_Set. rewrite Henc.
    assert ((0 <? expiresAt item - clk (r + 3)%nat) = true) as -> by lia.
    done.
  - done.
  - eapply misses_cons; [| apply misses_nil].
    tier_step. by rewrite Get_absent.
  - tier_step. rewrite (Get_live c1 k item) by (done || lia). by rewrite Hdec.
Qed.

(** X21.  A value stored without expiration is never promoted.  When the
    first store has no live entry for the key and the second holds one
    without expiration, [Get] returns the second store's value and writes
    nothing: both stores are as before, so the next [Get] goes to the
    second store again. *)
Theorem no_promotion_without_expiration (c0 c1 : memoryCache)
    (clk : nat -> Z) (r : nat) (k : string) (item : cacheItem) (out v : V) :
  fst (memoryCache_Exists c0 (clk r) k) = false ->
  c1 !! k = Some item ->
  expiresAt item = 0 ->
  json_Unmarshal (value item) out = (v, None) ->
  multiLevelCache_Get [L1; L2] k out
    {| stores := [c0; c1]; clock := clk; reads := r |}
  = ((v, None), {| stores := [c0; c1]; clock := clk; reads := (r + 4)%nat |}).
Proof.
  intros Hmiss Hc1 Hzero Hdec. unfold multiLevelCache_Get.
  pose proof (Get_loop_hit [L1; L2] 1 L2 k out out v
             {| stores := [c0; c1]; clock := clk; reads := r |}
             {| stores := [c0; c1]; clock := clk; reads := (r + 1)%nat |}
             {| stores := [c0; c1]; clock := clk; reads := (r + 2)%nat |}
             0%nat) as Hloop.
  cbn [drop take Nat.add] in Hloop. rewrite Hloop; clear Hloop.
  - tier_step. unfold memoryCache_TTL. rewrite Hc1, Hzero. done.
  - done.
  - eapply misses_cons; [| apply misses_nil].
    tier_step. by rewrite Get_absent.
  - tier_step. rewrite (Get_live c1 k item) by (done || by left).
    by rewrite Hdec.
Qed.

(** X22.  [Set] and [Delete] of the orchestrator over two in-process
    stores.  [Set] stores the encoded value in both; each store counts the
    ttl from its own clock reading, so the second store's copy expires at
    the same time or later.  A value that does not encode is stored in
    neither, and the error returned is the second store's.  [Delete]
    removes the key from both. *)
Theorem fan_out_over_stores (c0 c1 : memoryCache) (clk : nat -> Z)
    (r : nat) (k : string) (v : V) (data : bytes) (err : option error)
    (ttl : Z) :
  json_Marshal v = (data, err) ->
  let w := {| stores := [c0; c1]; clock := clk; reads := r |} in
  let item now :=
    {| value := data; expiresAt := if 0 <? ttl then now + ttl else 0 |} in
  multiLevelCache_Set [L1; L2] k v ttl w
  = (err,
     {| stores := if err is None
                  then [<[k := item (clk r)]> c0;
                        <[k := item (clk (r + 1)%nat)]> c1]
                  else [c0; c1];
        clock := clk;
        reads := (r + 2)%nat |}) /\
  multiLevelCache_Delete [L1; L2] k w
  = (None, {| stores := [delete k c0; delete k c1];
              clock := clk; reads := r |}).
Proof.
  intros Hm. cbv zeta. split.
  - unfold multiLevelCache_Set. cbn [map fan_out]. unfold bind, ret.
    tier_step. unfold memoryCache_Set, Add. rewrite ?Hm.
    destruct err as [e |]; tier_step; unfold memoryCache_Set, Add;
      rewrite ?Hm; tier_step; done.
  - unfold multiLevelCache_Delete. cbn [map fan_out]. unfold bind, ret.
    tier_step. unfold memoryCache_Delete. tier_step. done.
Qed.

End memory_tiers.

Section counter_tiers.
Context (zero : Z) (rangeOrder : gmap string Z -> list (string * Z)).

Local Abbreviation L1 := (memoryTier zero rangeOrder 0).
Local Abbreviation L2 := (memoryTier zero rangeOrder 1).

(** X23.  The counters of the orchestrator touch the last tier only, and
    [Get] reads the first tier first, so the two can disagree.  Over two
    in-process stores: after [Set(k, m, ttl)] an [Incr(k)] returns
    [m + 1], and a [Get(k)] made while the first store's copy is unexpired
    still returns [m]. *)
Theorem counter_stale_after_Incr (c0 c1 : memoryCache) (clk : nat -> Z)
    (r : nat) (k : string) (m ttl dest : Z) :
  (forall i j : nat, (i <= j)%nat -> clk i <= clk j) ->
  is_int64 m ->
  0 <= clk r ->
  ttl <= 0 \/ clk (r + 3)%nat <= clk r + ttl ->
  let w0 := {| stores := [c0; c1]; clock := clk; reads := r |} in
  let w1 := snd (multiLevelCache_Set [L1; L2] k m ttl w0) in
  let w2 := snd (multiLevelCache_Incr [L1; L2] k w1) in
  fst (multiLevelCache_Set [L1; L2] k m ttl w0) = None /\
  fst (multiLevelCache_Incr [L1; L2] k w1) = (wrap64 (m + 1), None) /\
  fst (multiLevelCache_Get [L1; L2] k dest w2) = (m, None).
Proof.
  intros Hmono Hm Hr Hlive. cbv zeta.
  pose proof (Hmono r (r + 1)%nat ltac:(lia)) as H01.
  pose proof (Hmono (r + 2)%nat (r + 3)%nat ltac:(lia)) as H23.
  unfold multiLevelCache_Set. cbn [map fan_out]. unfold bind, ret.
  tier_step. unfold memoryCache_Set, Add. cbn [json_Marshal JSON_int64].
  unfold json_Marshal_int64. tier_step. cbn [fst snd]. split; [done |].
  unfold multiLevelCache_Incr. cbn [last]. tier_step.
  unfold memoryCache_Incr.
  set (item1 := {| value := format_int m;
                   expiresAt := if 0 <? ttl then clk (r + 1)%nat + ttl
                                else 0 |}).
  set (item0 := {| value := format_int m;
                   expiresAt := if 0 <? ttl then clk r + ttl else 0 |}).
  assert (fst (memoryCache_IncrBy (<[k := item1]> c1) (clk (r + 2)%nat) k 1)
          = (wrap64 (m + 1), None)) as Hincr.
  { apply (IncrBy_adds _ _ _ m 1 item1 Hm (lookup_insert_eq _ _ _));
      [| done].
    apply isExpired_false. subst item1. simpl.
    destruct (Z.ltb_spec 0 ttl); lia. }
  destruct (memoryCache_IncrBy (<[k := item1]> c1) (clk (r + 2)%nat) k 1)
    as [res c1'].
  simpl in Hincr. subst res. tier_step. cbn [fst snd]. split; [done |].
  unfold multiLevelCache_Get. cbn [Get_loop]. unfold bind. tier_step.
  rewrite (Get_live (<[k := item0]> c0) k item0)
    by (first [apply lookup_insert_eq
              | subst item0; simpl; destruct (Z.ltb_spec 0 ttl); lia]).
  subst item0. cbn [value json_Unmarshal JSON_int64].
  rewrite (proj2 (json_int64_round_trip m dest Hm)). done.
Qed.

(** X24.  A counter made through the orchestrator lives in the last tier
    only and stays there.  Over two in-process stores that do not hold the
    key, [IncrBy(k, n)] returns [n] and stores it, without expiration, in
    the second store alone; a following [Get] returns it from the second
    store and, the entry having no expiration, writes no copy into the
    first. *)
Theorem IncrBy_only_last_tier (c0 c1 : memoryCache) (clk : nat -> Z)
    (r : nat) (k : string) (n dest : Z) :
  c0 !! k = None ->
  c1 !! k = None ->
  let counter := {| value := format_int (wrap64 n); expiresAt := 0 |} in
  multiLevelCache_IncrBy [L1; L2] k n
    {| stores := [c0; c1]; clock := clk; reads := r |}
  = ((wrap64 n, None),
     {| stores := [c0; <[k := counter]> c1];
        clock := clk; reads := (r + 1)%nat |}) /\
  multiLevelCache_Get [L1; L2] k dest
    {| stores := [c0; <[k := counter]> c1];
       clock := clk; reads := (r + 1)%nat |}
  = ((wrap64 n, None),
     {| stores := [c0; <[k := counter]> c1];
        clock := clk; reads := (r + 5)%nat |}).
Proof.
  intros Hc0 Hc1. cbv zeta. split.
  - unfold multiLevelCache_IncrBy. cbn [last]. tier_step.
    unfold memoryCache_IncrBy. rewrite Hc1. done.
  - unfold multiLevelCache_Get.
    pose proof (Get_loop_hit [L1; L2] 1 L2 k dest dest (wrap64 n)
      {| stores := [c0; <[k := {| value := format_int (wrap64 n);
                                  expiresAt := 0 |}]> c1];
         clock := clk; reads := (r + 1)%nat |}
      {| stores := [c0; <[k := {| value := format_int (wrap64 n);
                                  expiresAt := 0 |}]> c1];
         clock := clk; reads := (r + 2)%nat |}
      {| stores := [c0; <[k := {| value := format_int (wrap64 n);
                                  expiresAt := 0 |}]> c1];
         clock := clk; reads := (r + 3)%nat |}
      0%nat) as Hloop.
    cbn [drop take Nat.add] in Hloop. rewrite Hloop; clear Hloop.
    + tier_step. unfold memoryCache_TTL. rewrite lookup_insert_eq. done.
    + done.
    + eapply misses_cons; [| apply misses_nil].
      tier_step. unfold memoryCache_Get. by rewrite Hc0.
    + tier_step. unfold memoryCache_Get. rewrite lookup_insert_eq.
      cbn [isExpired expiresAt IsZero Z.eqb value json_Unmarshal JSON_int64].
      by rewrite (proj2 (json_int64_round_trip _ dest (wrap64_is_int64 n))).
Qed.

End counter_tiers.

(** ** The further properties at concrete inputs *)

(** X2 at a concrete input: 1 stored for 60ns, then 2 stored without
    expiration; long after the first ttl [Get] returns 2. *)
Lemma Set_overwrites_witness :
  memoryCache_Get
    (snd (memoryCache_Set (snd (memoryCache_Set NewMemoryCache 100 "k" 1 60))
            110 "k" 2 0))
    1000000 "k" 0
  = (2, None).
Proof.
  exact (proj1 (proj2 (proj2
    (@Set_overwrites Z JSON_int64 NewMemoryCache "k" 1 2 0 (format_int 2)
       60 0 100 110 1000000 eq_refl eq_refl ltac:(lia) ltac:(left; lia))))).
Defined.

(** X4 at a concrete input: 20ns after a [Set] for 60ns the TTL is 40ns. *)
Lemma TTL_after_Set_witness :
  memoryCache_TTL (snd (memoryCache_Set NewMemoryCache 100 "k" 42 60))
    110 120 "k"
  = (40, None).
Proof.
  exact (proj1
    (@TTL_after_Set Z JSON_int64 NewMemoryCache "k" 42 (format_int 42)
       60 100 110 120 ltac:(lia)
       ltac:(unfold is_int64, minInt64, maxInt64; lia)
       ltac:(lia) eq_refl ltac:(lia) ltac:(lia) ltac:(lia))).
Defined.

(** X5 at a concrete input: the entry expires at 105; checked at 105 and
    measured at 106 its TTL is reported as -1. *)
Lemma TTL_between_readings_witness :
  memoryCache_TTL (snd (memoryCache_Set NewMemoryCache 100 "k" 42 5))
    105 106 "k"
  = (-1, None).
Proof.
  exact (proj1 (proj2
    (TTL_between_readings
       (snd (memoryCache_Set NewMemoryCache 100 "k" 42 5)) "k"
       {| value := format_int 42; expiresAt := 105 |} 105 106
       eq_refl ltac:(discriminate) ltac:(simpl; lia) ltac:(simpl; lia)))
    eq_refl).
Defined.

(** X15 at a concrete input: the first tier knows "b" only, the second and
    the third know "a" with different values; the second tier's "a" is
    returned. *)
Lemma MGet_shallow_wins_witness :
  fst (fst (multiLevelCache_MGet
              [scripted 0 (batch_replies {[ "b" := 2 ]});
               scripted 1 (batch_replies {[ "a" := 1 ]});
               scripted 2 (batch_replies {[ "a" := 7 ]})]
              ["a"; "b"] [])) !! "a"
  = Some 1.
Proof.
  refine (proj1 (proj2 (proj2
    (MGet_shallow_wins
       [scripted 0 (batch_replies {[ "b" := 2 ]});
        scripted 1 (batch_replies {[ "a" := 1 ]});
        scripted 2 (batch_replies {[ "a" := 7 ]})] ["a"; "b"] [])))
    1%nat (scripted 1 (batch_replies {[ "a" := 1 ]})) ["a"]
    [(0%nat, CallMGet ["a"; "b"])] {[ "a" := 1 ]}
    [(0%nat, CallMGet ["a"; "b"]); (1%nat, CallMGet ["a"])] "a" 1
    eq_refl _ eq_refl _ eq_refl).
  - eapply (asked_answer _ _ _ _ {[ "b" := 2 ]});
      [discriminate | reflexivity | apply asked_nil].
  - apply list_elem_of_here.
Defined.

(** X16 at a concrete input: the last tier creates the key, the value is
    then written into the first tier. *)
Lemma SetNX_replicates_witness :
  multiLevelCache_SetNX [scripted 0 empty_replies; scripted 1 empty_replies]
    "lock" 1 60 []
  = ((true, None),
     [(1%nat, CallSetNX "lock" 1 60); (0%nat, CallSet "lock" 1 60)]).
Proof.
  exact (SetNX_replicates
           [scripted 0 empty_replies; scripted 1 empty_replies]
           (scripted 1 empty_replies) "lock" 1 60 [] true None
           [(1%nat, CallSetNX "lock" 1 60)] eq_refl eq_refl).
Defined.

(** X20 at a concrete input: the first store is empty, the second holds 1
    under "x" until 160; the clock reads 110, 111, ...  The copy is
    written at 114 with the 47ns left at 113 and expires at 161. *)
Lemma read_through_promotes_witness :
  let c1 := snd (memoryCache_Set NewMemoryCache 100 "x" 1 60) in
  let clk := fun n : nat => 110 + Z.of_nat n in
  multiLevelCache_Get
    [memoryTier 0 map_to_list 0; memoryTier 0 map_to_list 1] "x" 0
    {| stores := [NewMemoryCache; c1]; clock := clk; reads := 0 |}
  = ((1, None),
     {| stores := [<["x" := {| value := format_int 1; expiresAt := 161 |}]>
                     NewMemoryCache; c1];
        clock := clk; reads := 5 |}).
Proof.
  exact (proj1
    (@read_through_promotes Z JSON_int64 0 map_to_list NewMemoryCache
       (snd (memoryCache_Set NewMemoryCache 100 "x" 1 60))
       (fun n : nat => 110 + Z.of_nat n) 0 "x"
       {| value := format_int 1; expiresAt := 160 |} 0 1 (format_int 1)
       ltac:(intros; cbv beta; lia) eq_refl eq_refl ltac:(discriminate)
       ltac:(simpl; lia)
       ltac:(unfold is_int64, minInt64, maxInt64; simpl; lia)
       eq_refl eq_refl)).
Defined.

(** X21 at a concrete input: the second store holds 1 under "x" without
    expiration; the first store stays empty. *)
Lemma no_promotion_without_expiration_witness :
  let c1 := snd (memoryCache_Set NewMemoryCache 100 "x" 1 0) in
  let clk := fun n : nat => 110 + Z.of_nat n in
  multiLevelCache_Get
    [memoryTier 0 map_to_list 0; memoryTier 0 map_to_list 1] "x" 0
    {| stores := [NewMemoryCache; c1]; clock := clk; reads := 0 |}
  = ((1, None),
     {| stores := [NewMemoryCache; c1]; clock := clk; reads := 4 |}).
Proof.
  exact (@no_promotion_without_expiration Z JSON_int64 0 map_to_list
           NewMemoryCache (snd (memoryCache_Set NewMemoryCache 100 "x" 1 0))
           (fun n : nat => 110 + Z.of_nat n) 0 "x"
           {| value := format_int 1; expiresAt := 0 |} 0 1
           eq_refl eq_refl eq_refl eq_refl).
Defined.

(** X22 at a concrete input: 1 stored for 60ns through the orchestrator
    when the clock reads 110 and then 111. *)
Lemma fan_out_over_stores_witness :
  let clk := fun n : nat => 110 + Z.of_nat n in
  multiLevelCache_Set
    [memoryTier 0 map_to_list 0; memoryTier 0 map_to_list 1] "x" 1 60
    {| stores := [NewMemoryCache; NewMemoryCache]; clock := clk; reads := 0 |}
  = (None,
     {| stores :=
          [<["x" := {| value := format_int 1; expiresAt := 170 |}]>
             NewMemoryCache;
           <["x" := {| value := format_int 1; expiresAt := 171 |}]>
             NewMemoryCache];
        clock := clk; reads := 2 |}).
Proof.
  exact (proj1
    (@fan_out_over_stores Z JSON_int64 0 map_to_list NewMemoryCache
       NewMemoryCache (fun n : nat => 110 + Z.of_nat n) 0 "x" 1
       (format_int 1) None 60 eq_refl)).
Defined.

(** X23 at a concrete input: 10 is stored for 60ns, incremented and read,
    all through the orchestrator: [Incr] returns 11 and [Get] returns 10. *)
Lemma counter_stale_after_Incr_witness :
  let tiers := [memoryTier 0 map_to_list 0; memoryTier 0 map_to_list 1] in
  let w0 := {| stores := [NewMemoryCache; NewMemoryCache];
               clock := fun n : nat => 110 + Z.of_nat n; reads := 0 |} in
  let w1 := snd (multiLevelCache_Set tiers "n" 10 60 w0) in
  let w2 := snd (multiLevelCache_Incr tiers "n" w1) in
  fst (multiLevelCache_Incr tiers "n" w1) = (11, None) /\
  fst (multiLevelCache_Get tiers "n" 0 w2) = (10, None).
Proof.
  exact (proj2
    (counter_stale_after_Incr 0 map_to_list NewMemoryCache NewMemoryCache
       (fun n : nat => 110 + Z.of_nat n) 0 "n" 10 60 0
       ltac:(intros; cbv beta; lia)
       ltac:(unfold is_int64, minInt64, maxInt64; lia)
       ltac:(simpl; lia) ltac:(right; simpl; lia))).
Defined.

(** X24 at a concrete input: [IncrBy] by 5 on a fresh counter over two
    empty stores. *)
Lemma IncrBy_only_last_tier_witness :
  let clk := fun n : nat => 110 + Z.of_nat n in
  multiLevelCache_IncrBy
    [memoryTier 0 map_to_list 0; memoryTier 0 map_to_list 1] "n" 5
    {| stores := [NewMemoryCache; NewMemoryCache]; clock := clk; reads := 0 |}
  = ((5, None),
     {| stores := [NewMemoryCache;
                   <["n" := {| value := format_int 5; expiresAt := 0 |}]>
                     NewMemoryCache];
        clock := clk; reads := 1 |}).
Proof.
  exact (proj1
    (IncrBy_only_last_tier 0 map_to_list NewMemoryCache NewMemoryCache
       (fun n : nat => 110 + Z.of_nat n) 0 "n" 5 0 eq_refl eq_refl)).
Defined.

(** X9 at a concrete input: two counters stored for 60ns in one [MSet],
    visited at clock 100 and 101. *)
Lemma MSet_stores_prefix_witness :
  fst (memoryCache_MSet NewMemoryCache (fun i : nat => 100 + Z.of_nat i)
         [("a", 1); ("b", 2)] 60) = None /\
  snd (memoryCache_MSet NewMemoryCache (fun i : nat => 100 + Z.of_nat i)
         [("a", 1); ("b", 2)] 60) !! "b"
  = Some {| value := format_int 2; expiresAt := 161 |}.
Proof.
  pose proof (proj1 (@MSet_stores_prefix Z JSON_int64 NewMemoryCache
                       (fun i : nat => 100 + Z.of_nat i) 60)
                [("a", 1); ("b", 2)]
                ltac:(repeat constructor)
                ltac:(simpl; rewrite !NoDup_cons; repeat split;
                      [by intros [? | ?%elem_of_nil]%elem_of_cons
                      | by intros ?%elem_of_nil | apply NoDup_nil_2]))
    as (Herr & Hin & _).
  exact (conj Herr (Hin 1%nat "b" 2 eq_refl)).
Defined.

(** X14 at a concrete input: the first tier holds the key, the second is
    never asked. *)
Lemma Exists_short_circuit_witness :
  multiLevelCache_Exists
    [scripted 0 (holding_replies 1 (60, None)); scripted 1 empty_replies]
    "x" []
  = ((true, None), [(0%nat, CallExists "x")]).
Proof.
  exact (proj1
    (Exists_short_circuit
       [scripted 0 (holding_replies 1 (60, None)); scripted 1 empty_replies]
       "x" [])
    0%nat (scripted 0 (holding_replies 1 (60, None))) []
    [(0%nat, CallExists "x")] eq_refl
    (none_exists_nil "x" []) eq_refl).
Defined.

(** X17 at a concrete input: the first tier fails its ping, the second is
    never pinged. *)
Lemma Ping_fails_fast_witness :
  multiLevelCache_Ping
    [scripted 0 (failing_replies (errorString "connection refused"));
     scripted 1 (empty_replies (V := Z))] []
  = (Some (errorString "connection refused"), [(0%nat, CallPing)]).
Proof.
  exact (proj1
    (Ping_fails_fast
       [scripted 0 (failing_replies (errorString "connection refused"));
        scripted 1 (empty_replies (V := Z))] [])
    0%nat (scripted 0 (failing_replies (errorString "connection refused")))
    [] (errorString "connection refused") [(0%nat, CallPing)] eq_refl
    (all_pong_nil []) eq_refl).
Defined.

(** ** Wrapped errors under the not-found predicate *)

(** X25.  Wrapping keeps an error "not found" when it is so by its type or
    by being the sentinel, whatever the message of the wrapper.  An error
    that is "not found" only by its message "redis: nil" stops being so as
    soon as it is wrapped under another message: the message test looks at
    the outermost error alone. *)
Theorem IsNotFound_under_wrapping :
  (forall (e : error) (msg : string),
     IsNotFound (Some e) = true ->
     Error e <> "redis: nil" ->
     IsNotFound (Some (wrapError msg e)) = true) /\
  (forall (msg : string),
     IsNotFound (Some (errorString "redis: nil")) = true /\
     (msg <> "redis: nil" ->
      IsNotFound (Some (wrapError msg (errorString "redis: nil"))) = false)).
Proof.
  split.
  - intros e msg Hnf Hmsg. unfold IsNotFound in *. simpl.
    destruct (errors_As_NotFoundError e); [done |].
    destruct (errors_Is_ErrNotFound e); [done |].
    destruct (String.eqb (Error e) "redis: nil") eqn:Heq; [| done].
    by apply String_eqb_true in Heq.
  - intros msg. split; [done |]. intros Hmsg. unfold IsNotFound. simpl.
    destruct (String.eqb msg "redis: nil") eqn:Heq; [| done].
    by apply String_eqb_true in Heq.
Qed.

(** X25 at a concrete input: a wrapped typed error and a wrapped
    "redis: nil". *)
Lemma IsNotFound_under_wrapping_witness :
  IsNotFound (Some (wrapError "load user: cache: key not found: u1"
                      (NotFoundError "u1"))) = true /\
  IsNotFound (Some (wrapError "load user: redis: nil"
                      (errorString "redis: nil"))) = false.
Proof.
  split.
  - exact (proj1 IsNotFound_under_wrapping (NotFoundError "u1")
             "load user: cache: key not found: u1" eq_refl
             ltac:(discriminate)).
  - exact (proj2 (proj2 IsNotFound_under_wrapping "load user: redis: nil")
             ltac:(discriminate)).
Defined.
